(** * hd-ephemeris-api: the gate mapper, the design-epoch solver and the
    chart builder of [src/index.js], embedded in Rocq.

    The code is embedded twice.

    In the first embedding JavaScript numbers are exact rationals in
    canonical form ([Qc]) and no operation rounds.  It carries the
    properties that do not turn on rounding: which queries the chart
    builder makes and which entries it stores, what the solver does when its
    budget runs out or the provider fails, the digits of one given
    longitude.  The binary64 values of the step-size literals are computed
    in [Binary64].

    In the second embedding, module [Double], every number is a binary64
    datum ([spec_float]) and every operation rounds to nearest even as the
    Standard Library's [SpecFloat] specifies.  It carries the properties
    that rounding decides: the ranges of the gate code for every finite
    double, and what adding whole turns to the solver's target does. *)

From stdpp Require Import gmap strings list pretty.
From Stdlib Require Import QArith Qcanon Qround Qabs Qcabs Qpower Lqa.
From Stdlib Require Import Floats.SpecFloat.

Local Open Scope Qc_scope.

(** ** JavaScript numbers, without rounding *)

Module JS.

(** A decimal literal of the source. *)
Definition lit (q : Q) : Qc := Q2Qc q.
Arguments lit q%_Q.

(** An integer seen as a number. *)
Definition ofZ (z : Z) : Qc := Q2Qc (inject_Z z).

(** [Math.floor]. *)
Definition floor (x : Qc) : Z := Qfloor x.

(** Rounding towards zero, the integer quotient behind [%]. *)
Definition trunc (x : Qc) : Z :=
  if bool_decide (0 <= x) then Qfloor x else Qceiling x.

(** [a % b]: the remainder of the truncated division, with the sign of
    the dividend.  Every divisor in the source is a non-zero literal. *)
Definition rem (a b : Qc) : Qc := a - b * ofZ (trunc (a / b)).

(** [x < y] and [x > y] as tests. *)
Definition ltb (x y : Qc) : bool := bool_decide (x < y).
Definition gtb (x y : Qc) : bool := bool_decide (y < x).

(** [Math.abs]. *)
Definition abs (x : Qc) : Qc := Qcabs x.

(** [arr[i]] for a number [i] that holds an integer: [None] is
    [undefined]. *)
Definition index {A} (arr : list A) (i : Z) : option A :=
  if bool_decide (0 ≤ i)%Z then arr !! Z.to_nat i else None.

(** Truthiness of a string: only the empty string is falsy. *)
Definition truthy (s : string) : bool :=
  match s with EmptyString => false | _ => true end.

(** Interpolation of an integer-valued number and of a possibly
    undefined one into a template string. *)
Definition showZ (z : Z) : string := pretty z.
Definition showOpt (o : option Z) : string :=
  match o with Some z => showZ z | None => "undefined" end.

End JS.

Infix "%%" := JS.rem (at level 40, left associativity) : Qc_scope.

(** [((x % 360) + 360) % 360], the idiom the source writes out three
    times. *)
Definition normalize (x : Qc) : Qc :=
  ((x %% JS.lit 360) + JS.lit 360) %% JS.lit 360.

(** ** Fixed tables *)

Definition GATE_ORDER : list Z := [
  41; 19; 13; 49; 30; 55; 37; 63; 22; 36; 25; 17; 21; 51; 42; 3;
  27; 24; 2; 23; 8; 20; 16; 35; 45; 12; 15; 52; 39; 53; 62; 56;
  31; 33; 7; 4; 29; 59; 40; 64; 47; 6; 46; 18; 48; 57; 32; 50;
  28; 44; 1; 43; 14; 34; 9; 5; 26; 11; 10; 58; 38; 54; 61; 60
]%Z.

Definition DEGREES_PER_GATE : Qc := JS.lit 5.625.
Definition DEGREES_PER_LINE : Qc := JS.lit 0.9375.
Definition DEGREES_PER_COLOR : Qc := JS.lit 0.15625.
Definition DEGREES_PER_TONE : Qc := JS.lit 0.026041667.
Definition DEGREES_PER_BASE : Qc := JS.lit 0.005208333.

Definition HD_OFFSET : Qc := JS.lit 58.93.

(** ** GateMapper *)

Record GateCode := {
  gate : option Z;
  line : Z;
  color : Z;
  tone : Z;
  base : Z;
  longitude : Qc;
  wheelPosition : Qc;
  formatted : string
}.

Definition longitudeToGate (longitude : Qc) : GateCode :=
  let deg := ((longitude %% JS.lit 360) + JS.lit 360) %% JS.lit 360 in
  let wheelPos := (deg + HD_OFFSET) %% JS.lit 360 in
  let gateIndex := JS.floor (wheelPos / DEGREES_PER_GATE) in
  let gate := JS.index GATE_ORDER gateIndex in
  let posInGate := wheelPos %% DEGREES_PER_GATE in
  let line := (JS.floor (posInGate / DEGREES_PER_LINE) + 1)%Z in
  let posInLine := posInGate %% DEGREES_PER_LINE in
  let color := (JS.floor (posInLine / DEGREES_PER_COLOR) + 1)%Z in
  let posInColor := posInLine %% DEGREES_PER_COLOR in
  let tone := (JS.floor (posInColor / DEGREES_PER_TONE) + 1)%Z in
  let posInTone := posInColor %% DEGREES_PER_TONE in
  let base := (JS.floor (posInTone / DEGREES_PER_BASE) + 1)%Z in
  {| gate := gate;
     line := Z.min line 6;
     color := Z.min color 6;
     tone := Z.min tone 6;
     base := Z.min base 5;
     longitude := deg;
     wheelPosition := wheelPos;
     formatted :=
       JS.showOpt gate +:+ "." +:+ JS.showZ (Z.min line 6) +:+ "." +:+
       JS.showZ (Z.min color 6) +:+ "." +:+ JS.showZ (Z.min tone 6) +:+
       "." +:+ JS.showZ (Z.min base 5) |}.

(** The index into [GATE_ORDER] that [longitudeToGate] computes (its local
    [gateIndex]). *)
Definition gateIndexOf (longitude : Qc) : Z :=
  JS.floor (wheelPosition (longitudeToGate longitude) / DEGREES_PER_GATE).

(** The digits of a wheel position computed level by level, each level
    given by the step of its parent, its own step and its radix: the direct
    nested floor-divide and remainder computation of the specification. *)
Fixpoint nestedDigits (levels : list (Qc * Qc * Z)) (pos : Qc) : list Z :=
  match levels with
  | [] => []
  | (parentStep, step, radix) :: levels' =>
      let within := pos %% parentStep in
      Z.min (JS.floor (within / step) + 1) radix :: nestedDigits levels' within
  end.

Definition statedLevels : list (Qc * Qc * Z) :=
  [ (JS.lit 5.625, JS.lit 0.9375, 6%Z);
    (JS.lit 0.9375, JS.lit 0.15625, 6%Z);
    (JS.lit 0.15625, JS.lit 0.026041667, 6%Z);
    (JS.lit 0.026041667, JS.lit 0.005208333, 5%Z) ].

(** ** The ephemeris provider: the part of the [sweph] package the source
    uses.  Its constants, [calc_ut] and [julday] belong to that package and
    are parameters of everything below. *)

Record SwephConstants := {
  SE_SUN : Z;
  SE_MOON : Z;
  SE_MERCURY : Z;
  SE_VENUS : Z;
  SE_MARS : Z;
  SE_JUPITER : Z;
  SE_SATURN : Z;
  SE_URANUS : Z;
  SE_NEPTUNE : Z;
  SE_PLUTO : Z;
  SE_TRUE_NODE : Z;
  SE_CHIRON : Z;
  SE_GREG_CAL : Z;
  SEFLG_SWIEPH : Z;
  SEFLG_SPEED : Z
}.

(** What [calc_ut] returns: the [error] string (empty when the query
    succeeded) and [data[0]], the ecliptic longitude. *)
Record CalcResult := {
  error : string;
  data0 : Qc
}.

Record Sweph := {
  constants : SwephConstants;
  calc_ut : Qc -> Z -> Z -> CalcResult;
  julday : Z -> Z -> Z -> Qc -> Z -> Qc
}.

(** The UTC fields of a JavaScript [Date]. *)
Record Date := {
  getUTCFullYear : Z;
  getUTCMonth : Z;
  getUTCDate : Z;
  getUTCHours : Z;
  getUTCMinutes : Z;
  getUTCSeconds : Z
}.

Record Chart := {
  birthJulianDay : Qc;
  designJulianDay : Qc;
  personality : gmap string GateCode;
  design : gmap string GateCode
}.

Section Core.

Variable sweph : Sweph.

Let c : SwephConstants := constants sweph.

(** [Object.entries(PLANETS)], in insertion order. *)
Definition PLANETS : list (string * Z) :=
  [ ("Sun", SE_SUN c);
    ("Moon", SE_MOON c);
    ("Mercury", SE_MERCURY c);
    ("Venus", SE_VENUS c);
    ("Mars", SE_MARS c);
    ("Jupiter", SE_JUPITER c);
    ("Saturn", SE_SATURN c);
    ("Uranus", SE_URANUS c);
    ("Neptune", SE_NEPTUNE c);
    ("Pluto", SE_PLUTO c);
    ("NorthNode", SE_TRUE_NODE c);
    ("Chiron", SE_CHIRON c) ].

Definition dateToJulian (date : Date) : Qc :=
  let y := getUTCFullYear date in
  let m := (getUTCMonth date + 1)%Z in
  let d := getUTCDate date in
  let h := JS.ofZ (getUTCHours date) + JS.ofZ (getUTCMinutes date) / JS.lit 60
           + JS.ofZ (getUTCSeconds date) / JS.lit 3600 in
  julday sweph y m d h (SE_GREG_CAL c).

(** ** DesignEpochSolver *)

(** The [while (iterations < 200)] loop with [budget] iterations left:
    [Some jd] when the loop returns [jd], [None] when the budget runs
    out and control falls through to the code after the loop. *)
Fixpoint sunSearch (budget : nat) (targetLon direction jd : Qc) : option Qc :=
  match budget with
  | O => None
  | S budget' =>
      let flags := Z.lor (SEFLG_SWIEPH c) (SEFLG_SPEED c) in
      let sun := calc_ut sweph jd (SE_SUN c) flags in
      let sunLon := data0 sun in
      let diff := targetLon - sunLon in
      let diff := if JS.gtb diff (JS.lit 180) then diff - JS.lit 360 else diff in
      let diff := if JS.ltb diff (- JS.lit 180) then diff + JS.lit 360 else diff in
      if JS.ltb (JS.abs diff) (JS.lit 0.0001) then Some jd
      else sunSearch budget' targetLon direction (jd + diff * direction)
  end.

(** [direction] defaults to [-1] in the source; its only caller,
    [calculateChart], passes [-1]. *)
Definition findSunAtLongitude (targetLon startJd direction : Qc) : Qc :=
  let targetLon := ((targetLon %% JS.lit 360) + JS.lit 360) %% JS.lit 360 in
  match sunSearch 200 targetLon direction startJd with
  | Some jd => jd
  | None => startJd - JS.lit 88
  end.

(** The loop of [findSunAtLongitude] ran out of budget. *)
Definition exhausted (targetLon startJd direction : Qc) : bool :=
  match sunSearch 200 (normalize targetLon) direction startJd with
  | Some _ => false
  | None => true
  end.

(** ** ChartBuilder *)

(** The body of the [for (const [name, planetId] of
    Object.entries(PLANETS))] loops: query the provider, skip the body
    on failure, store its gate code otherwise. *)
Definition recordPosition (jd : Qc) (positions : gmap string GateCode)
    (entry : string * Z) : gmap string GateCode :=
  let '(name, planetId) := entry in
  let flags := Z.lor (SEFLG_SWIEPH c) (SEFLG_SPEED c) in
  let calc := calc_ut sweph jd planetId flags in
  if JS.truthy (error calc) then positions
  else <[name := longitudeToGate (data0 calc)]> positions.

(** One such loop: the positions of the tracked bodies at [jd], added to
    [positions]. *)
Definition bodyPositions (jd : Qc) (positions : gmap string GateCode)
  : gmap string GateCode :=
  fold_left (recordPosition jd) PLANETS positions.

(** [if (positions[body]) positions[name] =
    longitudeToGate((positions[body].longitude + 180) % 360)]: an object is
    truthy, so the test is the presence of the key. *)
Definition addOpposite (body name : string) (positions : gmap string GateCode)
  : gmap string GateCode :=
  match positions !! body with
  | Some g =>
      let lon := (longitude g + JS.lit 180) %% JS.lit 360 in
      <[name := longitudeToGate lon]> positions
  | None => positions
  end.

Definition calculateChart (birthDate : Date) : Chart :=
  let jd := dateToJulian birthDate in
  let flags := Z.lor (SEFLG_SWIEPH c) (SEFLG_SPEED c) in
  let birthSun := calc_ut sweph jd (SE_SUN c) flags in
  let birthSunLon := data0 birthSun in
  let designSunLon :=
    (((birthSunLon - JS.lit 88) %% JS.lit 360) + JS.lit 360) %% JS.lit 360 in
  let designJd := findSunAtLongitude designSunLon jd (- JS.lit 1) in
  let personality := bodyPositions jd ∅ in
  let personality := addOpposite "NorthNode" "SouthNode" personality in
  let personality := addOpposite "Sun" "Earth" personality in
  let design := bodyPositions designJd ∅ in
  let design := addOpposite "NorthNode" "SouthNode" design in
  let design := addOpposite "Sun" "Earth" design in
  {| birthJulianDay := jd;
     designJulianDay := designJd;
     personality := personality;
     design := design |}.

End Core.

(** ** Sample providers, used by the examples *)

(** The values these constants have in the Swiss Ephemeris headers. *)
Definition swissConstants : SwephConstants := {|
  SE_SUN := 0; SE_MOON := 1; SE_MERCURY := 2; SE_VENUS := 3; SE_MARS := 4;
  SE_JUPITER := 5; SE_SATURN := 6; SE_URANUS := 7; SE_NEPTUNE := 8;
  SE_PLUTO := 9; SE_TRUE_NODE := 11; SE_CHIRON := 15;
  SE_GREG_CAL := 1; SEFLG_SWIEPH := 2; SEFLG_SPEED := 256
|}.

(** The Julian day of a Gregorian calendar date at [h] hours UTC. *)
Definition gregorianJulday (y m d : Z) (h : Qc) (cal : Z) : Qc :=
  let a := ((m - 14) `quot` 12)%Z in
  let jdn := ((1461 * (y + 4800 + a)) `quot` 4
              + (367 * (m - 2 - 12 * a)) `quot` 12
              - (3 * ((y + 4900 + a) `quot` 100)) `quot` 4
              + d - 32075)%Z in
  JS.ofZ jdn + (h - JS.lit 12) / JS.lit 24.

(** Every body on a circular orbit of one degree a day, thirty degrees
    apart; the query fails, with a zeroed result, for the bodies selected by
    [failing]. *)
Definition circularEphemeris (failing : Z -> bool) (jd : Qc) (body flags : Z)
  : CalcResult :=
  if failing body
  then {| error := "ephemeris file not found"; data0 := JS.lit 0 |}
  else {| error := EmptyString;
          data0 := normalize (jd + JS.lit 30 * JS.ofZ body) |}.

Definition circularSweph (failing : Z -> bool) : Sweph := {|
  constants := swissConstants;
  calc_ut := circularEphemeris failing;
  julday := gregorianJulday
|}.

(** Every body at rest at longitude [lon], every query succeeding. *)
Definition stillSweph (lon : Qc) : Sweph := {|
  constants := swissConstants;
  calc_ut := fun _ _ _ => {| error := EmptyString; data0 := lon |};
  julday := gregorianJulday
|}.

(** The provider [sweph] with every query signalling failure while
    returning the same data. *)
Definition alwaysFailing (sweph : Sweph) : Sweph := {|
  constants := constants sweph;
  calc_ut := fun jd body flags =>
    {| error := "calculation failed";
       data0 := data0 (calc_ut sweph jd body flags) |};
  julday := julday sweph
|}.

Definition sunFails (body : Z) : bool := bool_decide (body = 0%Z).
Definition moonFails (body : Z) : bool := bool_decide (body = 1%Z).
Definition noneFails (body : Z) : bool := false.

(** 1983-01-14T21:24:00Z. *)
Definition fixtureDate : Date := {|
  getUTCFullYear := 1983; getUTCMonth := 0; getUTCDate := 14;
  getUTCHours := 21; getUTCMinutes := 24; getUTCSeconds := 0
|}.

(** ** The binary64 values of decimal literals *)

Module Binary64.

Definition prec : Z := 53.
Definition emax : Z := 1024.

(** The double nearest to an integer. *)
Definition ofZ (z : Z) : spec_float := binary_normalize prec emax z 0 false.

(** IEEE-754 division, rounding to nearest even. *)
Definition div (x y : spec_float) : spec_float := SFdiv prec emax x y.

(** The double a decimal literal denotes: the correctly rounded quotient
    of its numerator and denominator, both of which are below [2^53] for
    the literals of the source, hence exact as doubles. *)
Definition ofLiteral (x : Qc) : spec_float :=
  div (ofZ (Qnum x)) (ofZ (Zpos (Qden x))).

End Binary64.

(** ** The same code on IEEE-754 doubles

    The functions below repeat [longitudeToGate] and [findSunAtLongitude]
    with every number a binary64 datum ([spec_float]) and every arithmetic
    operation rounded to nearest even as [SpecFloat] specifies it.  They are
    the embedding used wherever rounding decides the outcome. *)

Module Double.

Definition prec : Z := Binary64.prec.
Definition emax : Z := Binary64.emax.

(** A decimal literal and an integer literal of the source. *)
Definition lit (q : Q) : spec_float := Binary64.ofLiteral (Q2Qc q).
Arguments lit q%_Q.
Definition ofZ (z : Z) : spec_float := Binary64.ofZ z.

(** [+], [-], [*], [/] and unary minus. *)
Definition add (x y : spec_float) : spec_float := SFadd prec emax x y.
Definition sub (x y : spec_float) : spec_float := SFsub prec emax x y.
Definition mul (x y : spec_float) : spec_float := SFmul prec emax x y.
Definition div (x y : spec_float) : spec_float := SFdiv prec emax x y.
Definition neg (x : spec_float) : spec_float := SFopp x.

(** [x < y], [x > y] and [Math.abs]. *)
Definition ltb (x y : spec_float) : bool := SFltb x y.
Definition gtb (x y : spec_float) : bool := SFltb y x.
Definition abs (x : spec_float) : spec_float := SFabs x.

(** [x % y]: the remainder of the truncated division, computed exactly
    (it is always a double), with the sign of the dividend; NaN when [x]
    is not finite or [y] is zero, [x] when [y] is infinite. *)
Definition rem (x y : spec_float) : spec_float :=
  match x, y with
  | S754_nan, _ | _, S754_nan => S754_nan
  | S754_infinity _, _ => S754_nan
  | _, S754_zero _ => S754_nan
  | S754_zero _, _ => x
  | S754_finite _ _ _, S754_infinity _ => x
  | S754_finite sx mx ex, S754_finite _ my ey =>
      let e := Z.min ex ey in
      let X := (Zpos mx * 2 ^ (ex - e))%Z in
      let Y := (Zpos my * 2 ^ (ey - e))%Z in
      binary_normalize prec emax (cond_Zopp sx (X mod Y)) e sx
  end.

(** [Math.floor]: the largest integer not above [x], as a double; zeros,
    infinities and NaN are returned as they are. *)
Definition floor (x : spec_float) : spec_float :=
  match x with
  | S754_finite s m e =>
      if (0 <=? e)%Z then x
      else binary_normalize prec emax (Z.shiftr (cond_Zopp s (Zpos m)) (- e)) 0 s
  | _ => x
  end.

(** [Math.min] of two numbers: NaN if either is NaN, and [-0] below
    [+0]. *)
Definition min (x y : spec_float) : spec_float :=
  match SFcompare x y with
  | None => S754_nan
  | Some Lt => x
  | Some Gt => y
  | Some Eq => match x with S754_zero true => x | _ => y end
  end.

(** The integer a double holds, if it holds one. *)
Definition toZ (x : spec_float) : option Z :=
  match x with
  | S754_zero _ => Some 0%Z
  | S754_finite s m e =>
      if (0 <=? e)%Z then Some (cond_Zopp s (Zpos m) * 2 ^ e)%Z
      else if (Zpos m mod 2 ^ (- e) =? 0)%Z
           then Some (cond_Zopp s (Zpos m) / 2 ^ (- e))%Z
           else None
  | _ => None
  end.

(** [arr[i]] for a number [i]: the element when [i] holds an integer that
    is an index of [arr], [undefined] ([None]) otherwise. *)
Definition index {A} (arr : list A) (i : spec_float) : option A :=
  match toZ i with
  | Some n => if bool_decide (0 ≤ n)%Z then arr !! Z.to_nat n else None
  | None => None
  end.

(** A number interpolated into a template string.  Only the cases that
    [Math.floor] and [Math.min] can produce are rendered as JavaScript
    does: integers below [10^21], NaN and the infinities. *)
Definition show (x : spec_float) : string :=
  match x with
  | S754_nan => "NaN"
  | S754_infinity false => "Infinity"
  | S754_infinity true => "-Infinity"
  | _ => match toZ x with Some n => pretty n | None => "(fraction)" end
  end.

Definition DEGREES_PER_GATE : spec_float := lit 5.625.
Definition DEGREES_PER_LINE : spec_float := lit 0.9375.
Definition DEGREES_PER_COLOR : spec_float := lit 0.15625.
Definition DEGREES_PER_TONE : spec_float := lit 0.026041667.
Definition DEGREES_PER_BASE : spec_float := lit 0.005208333.

Definition HD_OFFSET : spec_float := lit 58.93.

Record GateCode := {
  gate : option Z;
  line : spec_float;
  color : spec_float;
  tone : spec_float;
  base : spec_float;
  longitude : spec_float;
  wheelPosition : spec_float;
  formatted : string
}.

(** The local [gateIndex] of [longitudeToGate]. *)
Definition gateIndexOf (wheelPos : spec_float) : spec_float :=
  floor (div wheelPos DEGREES_PER_GATE).

Definition longitudeToGate (longitude : spec_float) : GateCode :=
  let deg := rem (add (rem longitude (ofZ 360)) (ofZ 360)) (ofZ 360) in
  let wheelPos := rem (add deg HD_OFFSET) (ofZ 360) in
  let gateIndex := floor (div wheelPos DEGREES_PER_GATE) in
  let gate := index GATE_ORDER gateIndex in
  let posInGate := rem wheelPos DEGREES_PER_GATE in
  let line := add (floor (div posInGate DEGREES_PER_LINE)) (ofZ 1) in
  let posInLine := rem posInGate DEGREES_PER_LINE in
  let color := add (floor (div posInLine DEGREES_PER_COLOR)) (ofZ 1) in
  let posInColor := rem posInLine DEGREES_PER_COLOR in
  let tone := add (floor (div posInColor DEGREES_PER_TONE)) (ofZ 1) in
  let posInTone := rem posInColor DEGREES_PER_TONE in
  let base := add (floor (div posInTone DEGREES_PER_BASE)) (ofZ 1) in
  {| gate := gate;
     line := min line (ofZ 6);
     color := min color (ofZ 6);
     tone := min tone (ofZ 6);
     base := min base (ofZ 5);
     longitude := deg;
     wheelPosition := wheelPos;
     formatted :=
       JS.showOpt gate +:+ "." +:+ show (min line (ofZ 6)) +:+ "." +:+
       show (min color (ofZ 6)) +:+ "." +:+ show (min tone (ofZ 6)) +:+
       "." +:+ show (min base (ofZ 5)) |}.

(** What [calc_ut] returns, and the provider, on doubles. *)
Record CalcResult := {
  error : string;
  data0 : spec_float
}.

Record Sweph := {
  constants : SwephConstants;
  calc_ut : spec_float -> Z -> Z -> CalcResult
}.

Section DesignEpoch.

Variable sweph : Sweph.

Let c : SwephConstants := constants sweph.

(** Line 92: [((targetLon % 360) + 360) % 360]. *)
Definition normalizeTarget (targetLon : spec_float) : spec_float :=
  rem (add (rem targetLon (ofZ 360)) (ofZ 360)) (ofZ 360).

Fixpoint sunSearch (budget : nat) (targetLon direction jd : spec_float)
  : option spec_float :=
  match budget with
  | O => None
  | S budget' =>
      let flags := Z.lor (SEFLG_SWIEPH c) (SEFLG_SPEED c) in
      let sun := calc_ut sweph jd (SE_SUN c) flags in
      let sunLon := data0 sun in
      let diff := sub targetLon sunLon in
      let diff := if gtb diff (ofZ 180) then sub diff (ofZ 360) else diff in
      let diff := if ltb diff (neg (ofZ 180)) then add diff (ofZ 360) else diff in
      if ltb (abs diff) (lit 0.0001) then Some jd
      else sunSearch budget' targetLon direction (add jd (mul diff direction))
  end.

(** Lines 98-103: the signed distance from the Sun's longitude at [jd] to
    the target, after the two wrap-around tests. *)
Definition sunDistance (targetLon jd : spec_float) : spec_float :=
  let flags := Z.lor (SEFLG_SWIEPH c) (SEFLG_SPEED c) in
  let sun := calc_ut sweph jd (SE_SUN c) flags in
  let sunLon := data0 sun in
  let diff := sub targetLon sunLon in
  let diff := if gtb diff (ofZ 180) then sub diff (ofZ 360) else diff in
  let diff := if ltb diff (neg (ofZ 180)) then add diff (ofZ 360) else diff in
  diff.

Definition findSunAtLongitude (targetLon startJd direction : spec_float)
  : spec_float :=
  let targetLon := rem (add (rem targetLon (ofZ 360)) (ofZ 360)) (ofZ 360) in
  match sunSearch 200 targetLon direction startJd with
  | Some jd => jd
  | None => sub startJd (ofZ 88)
  end.

End DesignEpoch.

(** Every query succeeding, with the Sun at rest at [lon]. *)
Definition stillSweph (lon : spec_float) : Sweph := {|
  constants := swissConstants;
  calc_ut := fun _ _ _ => {| error := EmptyString; data0 := lon |}
|}.

(** [m * 2 ^ e] for a positive [m], and its opposite. *)
Definition dyadic (negative : bool) (m : positive) (e : Z) : spec_float :=
  binary_round prec emax negative m e.

(** A double as a rational: the value of a finite double, [0] for the
    infinities and NaN. *)
Definition val (x : spec_float) : Q :=
  match x with
  | S754_finite s m e => (inject_Z (cond_Zopp s (Zpos m)) * 2 ^ e)%Q
  | _ => 0%Q
  end.

Definition is_finite (x : spec_float) : bool :=
  match x with S754_zero _ | S754_finite _ _ _ => true | _ => false end.

Definition sign_bit (x : spec_float) : bool :=
  match x with
  | S754_zero s | S754_infinity s | S754_finite s _ _ => s
  | S754_nan => false
  end.

(** A finite double: a zero, or a mantissa and exponent in canonical
    form. *)
Definition finite (x : spec_float) : Prop :=
  valid_binary prec emax x = true /\ is_finite x = true.

(** A positive finite double: what every divisor of [longitudeToGate]
    is. *)
Definition positive (y : spec_float) : Prop :=
  exists m e, y = S754_finite false m e /\ bounded prec emax m e = true.

(** The quotient of the largest double below 360, [360 - 2^-44], by
    [DEGREES_PER_GATE]. *)
Definition largest_quotient : Q := ((360 - 2 ^ (-44)) / 5.625)%Q.

#[global] Instance spec_float_eq_dec : EqDecision spec_float.
Proof. solve_decision. Defined.

(** Two targets one whole turn apart, and a Sun at rest near the second:
    [lowTarget] is [-(128 + 2^-45)], [sunNearby] is
    [232 - 3518437209 * 2^-45]. *)
Definition lowTarget : spec_float := dyadic true (2 ^ 52 + 1) (-45).

(** [r] is the double of sign [s] and magnitude [T * 2 ^ E]. *)
Definition encodes (s : bool) (T E : Z) (r : spec_float) : Prop :=
  (T = 0%Z /\ r = S754_zero s) \/
  (exists m e, r = S754_finite s m e /\ bounded prec emax m e = true /\
               (E <= e)%Z /\ (Zpos m * 2 ^ (e - E))%Z = T).

End Double.

(** * Properties *)

(** ** Exact arithmetic: from canonical rationals to [Q] *)

Section Arith.

Lemma this_plus (x y : Qc) : (this (x + y) == this x + this y)%Q.
Proof. apply Qred_correct. Qed.

Lemma this_opp (x : Qc) : (this (- x) == - this x)%Q.
Proof. apply Qred_correct. Qed.

Lemma this_minus (x y : Qc) : (this (x - y) == this x - this y)%Q.
Proof. unfold Qcminus. rewrite this_plus, this_opp. reflexivity. Qed.

Lemma this_mult (x y : Qc) : (this (x * y) == this x * this y)%Q.
Proof. apply Qred_correct. Qed.

Lemma this_inv (x : Qc) : (this (/ x) == / this x)%Q.
Proof. apply Qred_correct. Qed.

Lemma this_div (x y : Qc) : (this (x / y) == this x / this y)%Q.
Proof. unfold Qcdiv. rewrite this_mult, this_inv. reflexivity. Qed.

Lemma this_lit (q : Q) : (this (JS.lit q) == q)%Q.
Proof. apply Qred_correct. Qed.

Lemma this_ofZ (z : Z) : (this (JS.ofZ z) == inject_Z z)%Q.
Proof. apply Qred_correct. Qed.

Lemma Qc_eq_this (x y : Qc) : (this x == this y)%Q -> x = y.
Proof. apply Qc_is_canon. Qed.

Lemma this_eq (x y : Qc) : x = y -> (this x == this y)%Q.
Proof. intros ->. reflexivity. Qed.

End Arith.

Ltac to_Q :=
  unfold Qclt, Qcle in *;
  repeat first
    [ rewrite this_minus in * | rewrite this_plus in * | rewrite this_opp in *
    | rewrite this_div in * | rewrite this_mult in * | rewrite this_inv in *
    | rewrite this_lit in * | rewrite this_ofZ in * ].

Section Remainder.

Lemma Qfloor_div_bounds (a b : Q) : (0 < b)%Q ->
  (b * inject_Z (Qfloor (a / b)) <= a < b * inject_Z (Qfloor (a / b)) + b)%Q.
Proof.
  intros Hb.
  pose proof (Qfloor_le (a / b)) as Hlo.
  pose proof (Qlt_floor (a / b)) as Hhi.
  rewrite inject_Z_plus in Hhi. change (inject_Z 1) with 1%Q in Hhi.
  set (k := inject_Z (Qfloor (a / b))) in *.
  assert (Ha : (a == b * (a / b))%Q) by (field; lra).
  apply (Qmult_le_l _ _ b) in Hlo; [|assumption].
  apply (Qmult_lt_l _ _ b) in Hhi; [|assumption].
  clearbody k. set (d := (b * (a / b))%Q) in *. clearbody d.
  split; lra.
Qed.

Lemma Qceiling_div_bounds (a b : Q) : (0 < b)%Q ->
  (b * inject_Z (Qceiling (a / b)) - b < a <= b * inject_Z (Qceiling (a / b)))%Q.
Proof.
  intros Hb.
  pose proof (Qle_ceiling (a / b)) as Hhi.
  pose proof (Qceiling_lt (a / b)) as Hlo.
  unfold Z.sub in Hlo. rewrite inject_Z_plus in Hlo.
  rewrite inject_Z_opp in Hlo. change (inject_Z 1) with 1%Q in Hlo.
  set (k := inject_Z (Qceiling (a / b))) in *.
  assert (Ha : (a == b * (a / b))%Q) by (field; lra).
  apply (Qmult_le_l _ _ b) in Hhi; [|assumption].
  apply (Qmult_lt_l _ _ b) in Hlo; [|assumption].
  clearbody k. set (d := (b * (a / b))%Q) in *. clearbody d.
  split; lra.
Qed.

Lemma this_rem (a b : Qc) :
  (this (a %% b) == this a - this b * inject_Z (JS.trunc (a / b)))%Q.
Proof. unfold JS.rem. to_Q. reflexivity. Qed.

Lemma trunc_floor (x : Qc) : 0 <= x -> JS.trunc x = Qfloor x.
Proof. intros H. unfold JS.trunc. rewrite bool_decide_true; done. Qed.

Lemma trunc_ceiling (x : Qc) : x < 0 -> JS.trunc x = Qceiling x.
Proof.
  intros H. unfold JS.trunc. rewrite bool_decide_false; [done|].
  intros H'. to_Q. lra.
Qed.

(** A non-negative dividend leaves a remainder in [[0, b)]. *)
Lemma rem_nonneg (a b : Qc) : 0 < b -> 0 <= a -> 0 <= a %% b /\ a %% b < b.
Proof.
  intros Hb Ha.
  assert (Hq : 0 <= a / b).
  { to_Q. apply Qle_shift_div_l; lra. }
  pose proof (this_rem a b) as Hr. rewrite (trunc_floor _ Hq) in Hr.
  to_Q. destruct (Qfloor_div_bounds a b Hb). lra.
Qed.

(** A negative dividend leaves a remainder in [(-b, 0]]. *)
Lemma rem_neg (a b : Qc) : 0 < b -> a < 0 -> - b < a %% b /\ a %% b <= 0.
Proof.
  intros Hb Ha.
  assert (Hq : a / b < 0).
  { to_Q. apply Qlt_shift_div_r; lra. }
  pose proof (this_rem a b) as Hr. rewrite (trunc_ceiling _ Hq) in Hr.
  to_Q. destruct (Qceiling_div_bounds a b Hb). lra.
Qed.

Lemma rem_abs (a b : Qc) : 0 < b -> - b < a %% b /\ a %% b < b.
Proof.
  intros Hb. destruct (Qclt_le_dec a 0) as [Ha|Ha].
  - destruct (rem_neg a b Hb Ha). to_Q. lra.
  - destruct (rem_nonneg a b Hb Ha). to_Q. lra.
Qed.

(** The remainder differs from the dividend by a whole multiple of the
    divisor. *)
Lemma rem_multiple (a b : Qc) : exists k : Z, a %% b = a + b * JS.ofZ k.
Proof.
  exists (- JS.trunc (a / b))%Z. apply Qc_eq_this.
  rewrite this_rem. to_Q. rewrite inject_Z_opp. ring.
Qed.

(** Two numbers of [[0, b)] that differ by a whole multiple of [b] are
    equal. *)
Lemma residue_unique (b x y : Qc) (k : Z) :
  0 < b -> 0 <= x -> x < b -> 0 <= y -> y < b -> x = y + b * JS.ofZ k -> x = y.
Proof.
  intros Hb Hx0 Hxb Hy0 Hyb E.
  assert (Hk : k = 0%Z).
  { apply this_eq in E. to_Q.
    assert (H1 : (this b * inject_Z (-1) < this b * inject_Z k)%Q)
      by (change (inject_Z (-1)) with (-1 # 1)%Q;
          set (z := inject_Z k) in *; clearbody z; lra).
    assert (H2 : (this b * inject_Z k < this b * inject_Z 1)%Q)
      by (change (inject_Z 1) with 1%Q;
          set (z := inject_Z k) in *; clearbody z; lra).
    apply Qmult_lt_l in H1; [|assumption].
    apply Qmult_lt_l in H2; [|assumption].
    rewrite <- Zlt_Qlt in H1, H2. lia. }
  subst k. apply Qc_eq_this. apply this_eq in E. to_Q.
  change (inject_Z 0) with 0%Q in E. rewrite E. ring.
Qed.

End Remainder.

(** ** Normalisation into [[0, 360)] *)

Section Normalize.

Lemma full_turn_pos : 0 < JS.lit 360.
Proof. reflexivity. Qed.

Lemma normalize_range (x : Qc) : 0 <= normalize x /\ normalize x < JS.lit 360.
Proof.
  unfold normalize. apply rem_nonneg; [apply full_turn_pos|].
  destruct (rem_abs x (JS.lit 360) full_turn_pos) as [H _]. to_Q. lra.
Qed.

Lemma normalize_multiple (x : Qc) :
  exists k : Z, normalize x = x + JS.lit 360 * JS.ofZ k.
Proof.
  unfold normalize.
  destruct (rem_multiple x (JS.lit 360)) as [k1 ->].
  destruct (rem_multiple (x + JS.lit 360 * JS.ofZ k1 + JS.lit 360) (JS.lit 360))
    as [k2 ->].
  exists (k1 + 1 + k2)%Z. apply Qc_eq_this. to_Q.
  rewrite !inject_Z_plus. change (inject_Z 1) with 1%Q. ring.
Qed.

(** Two longitudes a whole number of turns apart have the same normal
    form. *)
Lemma normalize_congruent (x y : Qc) (k : Z) :
  x = y + JS.lit 360 * JS.ofZ k -> normalize x = normalize y.
Proof.
  intros E.
  destruct (normalize_multiple x) as [kx Hx].
  destruct (normalize_multiple y) as [ky Hy].
  destruct (normalize_range x) as [Hx0 Hx1].
  destruct (normalize_range y) as [Hy0 Hy1].
  apply (residue_unique (JS.lit 360) _ _ (kx + k - ky) full_turn_pos);
    try assumption.
  rewrite Hx, Hy, E. apply Qc_eq_this. to_Q.
  unfold Z.sub. rewrite !inject_Z_plus, inject_Z_opp. ring.
Qed.

Lemma normalize_rem (x : Qc) : normalize (x %% JS.lit 360) = normalize x.
Proof.
  destruct (rem_multiple x (JS.lit 360)) as [k Hk].
  exact (normalize_congruent _ _ k Hk).
Qed.

End Normalize.

(** ** GateMapper *)

Section GateMapper.

Lemma longitude_normalized (l : Qc) :
  longitude (longitudeToGate l) = normalize l.
Proof. reflexivity. Qed.

(** The four digits are the nested computation on the wheel position. *)
Lemma digits_nested (l : Qc) :
  let g := longitudeToGate l in
  [line g; color g; tone g; base g] =
  nestedDigits statedLevels (wheelPosition g).
Proof. reflexivity. Qed.

End GateMapper.

(** C9. [longitudeToGate(0)] with the offset 58.93: the wheel position is
    58.93, the arc index is [floor(58.93 / 5.625) = 10], the gate is
    [GATE_ORDER[10]], and line, color, tone and base are the nested
    floor-divide and remainder computation from the step constants 0.9375,
    0.15625, 0.026041667 and 0.005208333, which gives 25.3.6.1.5. *)
Theorem longitudeToGate_zero :
  let g := longitudeToGate (JS.lit 0) in
  HD_OFFSET = JS.lit 58.93 /\
  wheelPosition g = JS.lit 58.93 /\
  JS.floor (JS.lit 58.93 / JS.lit 5.625) = 10%Z /\
  gateIndexOf (JS.lit 0) = 10%Z /\
  gate g = GATE_ORDER !! 10%nat /\
  [line g; color g; tone g; base g] =
    nestedDigits statedLevels (JS.lit 58.93) /\
  gate g = Some 25%Z /\
  [line g; color g; tone g; base g] = [3; 6; 1; 5]%Z /\
  formatted g = "25.3.6.1.5".
Proof.
  assert (Hw : wheelPosition (longitudeToGate (JS.lit 0)) = JS.lit 58.93).
  { apply Qc_eq_this. vm_compute. reflexivity. }
  cbv zeta. split; [reflexivity|]. split; [exact Hw|].
  split; [vm_compute; reflexivity|]. split; [vm_compute; reflexivity|].
  split; [vm_compute; reflexivity|].
  split; [rewrite digits_nested, Hw; reflexivity|].
  split; [vm_compute; reflexivity|].
  split; vm_compute; reflexivity.
Qed.

(** ** The step-size constants *)

(** C5, as stated, fails: the doubles denoted by the literals
    [DEGREES_PER_TONE] and [DEGREES_PER_BASE] are not the quotients of their
    parents' doubles by 6 and by 5. *)
Lemma step_constants_not_bit_for_bit :
  ~ (Binary64.ofLiteral DEGREES_PER_LINE =
       Binary64.div (Binary64.ofLiteral DEGREES_PER_GATE) (Binary64.ofZ 6) /\
     Binary64.ofLiteral DEGREES_PER_COLOR =
       Binary64.div (Binary64.ofLiteral DEGREES_PER_LINE) (Binary64.ofZ 6) /\
     Binary64.ofLiteral DEGREES_PER_TONE =
       Binary64.div (Binary64.ofLiteral DEGREES_PER_COLOR) (Binary64.ofZ 6) /\
     Binary64.ofLiteral DEGREES_PER_BASE =
       Binary64.div (Binary64.ofLiteral DEGREES_PER_TONE) (Binary64.ofZ 5)).
Proof. intros (_ & _ & Htone & _). vm_compute in Htone. discriminate. Qed.

(** C5, amended.  [DEGREES_PER_LINE] is [DEGREES_PER_GATE / 6] and
    [DEGREES_PER_COLOR] is [DEGREES_PER_LINE / 6], exactly and bit for bit
    as doubles.  [DEGREES_PER_TONE] and [DEGREES_PER_BASE] are decimal
    literals of nine places: each lies within [5e-10] of its parent's step
    divided by its radix (and [DEGREES_PER_BASE] within [5e-10] of
    [5.625 / 6 / 6 / 6 / 5]), and equals it neither exactly nor as a
    double. *)
Theorem step_constants_nesting :
  (DEGREES_PER_LINE = DEGREES_PER_GATE / JS.lit 6 /\
   DEGREES_PER_COLOR = DEGREES_PER_LINE / JS.lit 6 /\
   Binary64.ofLiteral DEGREES_PER_LINE =
     Binary64.div (Binary64.ofLiteral DEGREES_PER_GATE) (Binary64.ofZ 6) /\
   Binary64.ofLiteral DEGREES_PER_COLOR =
     Binary64.div (Binary64.ofLiteral DEGREES_PER_LINE) (Binary64.ofZ 6)) /\
  (JS.abs (DEGREES_PER_TONE - DEGREES_PER_COLOR / JS.lit 6) <= JS.lit 0.0000000005 /\
   JS.abs (DEGREES_PER_BASE - DEGREES_PER_TONE / JS.lit 5) <= JS.lit 0.0000000005 /\
   JS.abs (DEGREES_PER_BASE - JS.lit 5.625 / JS.lit 6 / JS.lit 6 / JS.lit 6 / JS.lit 5)
     <= JS.lit 0.0000000005) /\
  (DEGREES_PER_TONE <> DEGREES_PER_COLOR / JS.lit 6 /\
   DEGREES_PER_BASE <> DEGREES_PER_TONE / JS.lit 5 /\
   Binary64.ofLiteral DEGREES_PER_TONE <>
     Binary64.div (Binary64.ofLiteral DEGREES_PER_COLOR) (Binary64.ofZ 6) /\
   Binary64.ofLiteral DEGREES_PER_BASE <>
     Binary64.div (Binary64.ofLiteral DEGREES_PER_TONE) (Binary64.ofZ 5)).
Proof.
  split; [|split].
  - repeat split; try (apply Qc_eq_this); vm_compute; reflexivity.
  - repeat split; vm_compute; discriminate.
  - repeat split; intros H.
    + apply this_eq in H. vm_compute in H. discriminate.
    + apply this_eq in H. vm_compute in H. discriminate.
    + vm_compute in H. discriminate.
    + vm_compute in H. discriminate.
Qed.

(** ** DesignEpochSolver *)

Section Solver.

Variable sweph : Sweph.

Lemma findSunAtLongitude_normalizes (targetLon startJd direction : Qc) :
  findSunAtLongitude sweph targetLon startJd direction =
  match sunSearch sweph 200 (normalize targetLon) direction startJd with
  | Some jd => jd
  | None => startJd - JS.lit 88
  end.
Proof. reflexivity. Qed.

(** The loop never returns after its budget: with no iterations left it
    falls through. *)
Lemma sunSearch_no_budget (targetLon direction jd : Qc) :
  sunSearch sweph 0 targetLon direction jd = None.
Proof. reflexivity. Qed.

(** What the loop returns is a time at which the provider's [data[0]]
    for the Sun is within the tolerance of the target, up to a whole
    turn. *)
Lemma sunSearch_converged (budget : nat) (targetLon direction jd found : Qc) :
  sunSearch sweph budget targetLon direction jd = Some found ->
  let flags := Z.lor (SEFLG_SWIEPH (constants sweph)) (SEFLG_SPEED (constants sweph)) in
  let sunLon := data0 (calc_ut sweph found (SE_SUN (constants sweph)) flags) in
  exists turn : Qc,
    (turn = 0 \/ turn = JS.lit 360 \/ turn = - JS.lit 360) /\
    JS.abs (targetLon - sunLon + turn) < JS.lit 0.0001.
Proof.
  revert jd. induction budget as [|budget IH]; intros jd; [discriminate|].
  cbn [sunSearch]. cbv zeta.
  set (d0 := targetLon - data0 _).
  destruct (JS.ltb (JS.abs _) (JS.lit 0.0001)) eqn:Hconv; [|apply IH].
  intros [= <-]. apply bool_decide_eq_true in Hconv. fold d0.
  destruct (JS.gtb d0 (JS.lit 180)), (JS.ltb _ (- JS.lit 180)) eqn:Hlt.
  - exists 0. split; [auto|]. revert Hconv.
    replace (d0 - JS.lit 360 + JS.lit 360) with (d0 + 0) by ring. auto.
  - exists (- JS.lit 360). split; [auto|]. exact Hconv.
  - exists (JS.lit 360). split; [auto|]. exact Hconv.
  - exists 0. split; [auto|]. revert Hconv.
    replace (d0 + 0) with d0 by ring. auto.
Qed.

(** The loop never reads the [error] field: a provider that signals
    failure on every query drives the search exactly as one that returns
    the same data successfully. *)
Lemma sunSearch_error_blind (budget : nat) (targetLon direction jd : Qc) :
  sunSearch (alwaysFailing sweph) budget targetLon direction jd =
  sunSearch sweph budget targetLon direction jd.
Proof.
  revert jd. induction budget as [|budget IH]; intros jd; [reflexivity|].
  cbn [sunSearch]. cbv zeta. rewrite IH. reflexivity.
Qed.

(** X6. Hence [findSunAtLongitude] returns the same result whether or not
    the provider reports failure. *)
Lemma findSunAtLongitude_error_blind (targetLon startJd direction : Qc) :
  findSunAtLongitude (alwaysFailing sweph) targetLon startJd direction =
  findSunAtLongitude sweph targetLon startJd direction.
Proof.
  unfold findSunAtLongitude. rewrite sunSearch_error_blind. reflexivity.
Qed.

End Solver.

Section SolverExamples.

(** A provider whose Sun stays at longitude 0: target 0 is found at once,
    target 50 never. *)
Lemma stillSweph_converges :
  exhausted (stillSweph (JS.lit 0)) (JS.lit 0) (JS.lit 12) (- JS.lit 1) = false /\
  findSunAtLongitude (stillSweph (JS.lit 0)) (JS.lit 0) (JS.lit 12) (- JS.lit 1)
  = JS.lit 12.
Proof. split; [|apply Qc_eq_this]; vm_compute; reflexivity. Qed.

Lemma stillSweph_exhausts :
  exhausted (stillSweph (JS.lit 0)) (JS.lit 50) (JS.lit 100) (- JS.lit 1) = true /\
  findSunAtLongitude (stillSweph (JS.lit 0)) (JS.lit 50) (JS.lit 100) (- JS.lit 1)
  = JS.lit 12.
Proof. split; [|apply Qc_eq_this]; vm_compute; reflexivity. Qed.

End SolverExamples.

(** C2, as stated, fails: nothing that can be read off the returned value
    tells a fallback from a converged result.  The same provider returns
    12 once after converging and once after exhausting its budget. *)
Lemma fallback_not_flagged :
  ~ exists flag : Qc -> bool,
      forall (sweph : Sweph) (targetLon startJd direction : Qc),
        flag (findSunAtLongitude sweph targetLon startJd direction) =
        exhausted sweph targetLon startJd direction.
Proof.
  intros [flag Hflag].
  pose proof (Hflag (stillSweph (JS.lit 0)) (JS.lit 0) (JS.lit 12) (- JS.lit 1)) as H1.
  pose proof (Hflag (stillSweph (JS.lit 0)) (JS.lit 50) (JS.lit 100) (- JS.lit 1)) as H2.
  destruct stillSweph_converges as [E1 V1], stillSweph_exhausts as [E2 V2].
  rewrite E1, V1 in H1. rewrite E2, V2 in H2. congruence.
Qed.

(** C2, amended.  When the loop exhausts its 200 iterations without
    converging, [findSunAtLongitude] returns [startJd - 88]: a bare time
    value, of the same type as a converged result and carrying no flag. *)
Theorem findSunAtLongitude_fallback
    (sweph : Sweph) (targetLon startJd direction : Qc) :
  exhausted sweph targetLon startJd direction = true ->
  findSunAtLongitude sweph targetLon startJd direction = startJd - JS.lit 88.
Proof.
  unfold exhausted. rewrite findSunAtLongitude_normalizes.
  destruct (sunSearch _ _ _ _ _); [discriminate|reflexivity].
Qed.

Lemma findSunAtLongitude_fallback_witness :
  exhausted (stillSweph (JS.lit 0)) (JS.lit 50) (JS.lit 100) (- JS.lit 1) = true /\
  findSunAtLongitude (stillSweph (JS.lit 0)) (JS.lit 50) (JS.lit 100) (- JS.lit 1)
  = JS.lit 100 - JS.lit 88.
Proof.
  split; [vm_compute; reflexivity|].
  apply (findSunAtLongitude_fallback (stillSweph (JS.lit 0))).
  vm_compute; reflexivity.
Defined.

(** C4 at a failing input.  Every Sun query of this provider signals
    failure; [findSunAtLongitude] does not look at the [error] field, takes
    the zeroed [data[0]] for the Sun's longitude, runs through all 200
    iterations and returns the fallback [100 - 88 = 12]. *)
Theorem findSunAtLongitude_ignores_failure :
  let sweph := circularSweph sunFails in
  let flags := Z.lor (SEFLG_SWIEPH (constants sweph)) (SEFLG_SPEED (constants sweph)) in
  (forall jd, JS.truthy (error (calc_ut sweph jd (SE_SUN (constants sweph)) flags)) = true) /\
  exhausted sweph (JS.lit 50) (JS.lit 100) (- JS.lit 1) = true /\
  findSunAtLongitude sweph (JS.lit 50) (JS.lit 100) (- JS.lit 1) = JS.lit 12.
Proof.
  cbv zeta. split; [reflexivity|].
  split; [|apply Qc_eq_this]; vm_compute; reflexivity.
Qed.

(** ** ChartBuilder *)

Section ChartBuilder.

Variable sweph : Sweph.

Local Abbreviation flags :=
  (Z.lor (SEFLG_SWIEPH (constants sweph)) (SEFLG_SPEED (constants sweph))).

(** What one query contributes: nothing on failure, the gate code of
    [data[0]] otherwise. *)
Local Abbreviation queried jd planetId :=
  (if JS.truthy (error (calc_ut sweph jd planetId flags)) then None
   else Some (longitudeToGate (data0 (calc_ut sweph jd planetId flags)))).

Lemma recordPosition_other jd positions name planetId key :
  key ≠ name ->
  recordPosition sweph jd positions (name, planetId) !! key = positions !! key.
Proof.
  intros Hne. cbn [recordPosition]. cbv zeta.
  destruct (JS.truthy _); [reflexivity|]. apply lookup_insert_ne. congruence.
Qed.

Lemma positions_lookup_absent (entries : list (string * Z)) jd positions key :
  key ∉ entries.*1 ->
  fold_left (recordPosition sweph jd) entries positions !! key = positions !! key.
Proof.
  revert positions.
  induction entries as [|[name planetId] entries IH]; intros positions Hkey;
    [reflexivity|].
  cbn [fold_left]. rewrite fmap_cons, not_elem_of_cons in Hkey.
  destruct Hkey as [Hne Hkey].
  rewrite IH by assumption. apply recordPosition_other. exact Hne.
Qed.

(** A loop over entries with distinct names leaves under each name the
    outcome of that name's own query. *)
Lemma positions_lookup_present
    (entries : list (string * Z)) jd positions name planetId :
  NoDup entries.*1 -> (name, planetId) ∈ entries ->
  fold_left (recordPosition sweph jd) entries positions !! name =
  if JS.truthy (error (calc_ut sweph jd planetId flags)) then positions !! name
  else Some (longitudeToGate (data0 (calc_ut sweph jd planetId flags))).
Proof.
  revert positions.
  induction entries as [|[name' planetId'] entries IH];
    intros positions Hnodup Hin; [by apply elem_of_nil in Hin|].
  rewrite fmap_cons in Hnodup. apply NoDup_cons in Hnodup as [Hfresh Hnodup].
  cbn [fold_left]. apply elem_of_cons in Hin as [[= <- <-]|Hin].
  - rewrite positions_lookup_absent by exact Hfresh.
    cbn [recordPosition]. cbv zeta.
    destruct (JS.truthy _); [reflexivity|]. apply lookup_insert_eq.
  - rewrite IH by assumption.
    assert (Hne : name ≠ name').
    { intros ->. apply Hfresh. apply list_elem_of_fmap.
      exists (name', planetId). split; [reflexivity|assumption]. }
    destruct (JS.truthy _); [|reflexivity].
    apply recordPosition_other. exact Hne.
Qed.

Lemma PLANETS_names :
  (PLANETS sweph).*1 =
  ["Sun"; "Moon"; "Mercury"; "Venus"; "Mars"; "Jupiter"; "Saturn";
   "Uranus"; "Neptune"; "Pluto"; "NorthNode"; "Chiron"].
Proof. reflexivity. Qed.

Lemma PLANETS_NoDup : NoDup (PLANETS sweph).*1.
Proof.
  rewrite PLANETS_names.
  apply NoDup_ListNoDup. repeat constructor; cbn; intuition discriminate.
Qed.

Lemma PLANETS_not_derived name planetId :
  (name, planetId) ∈ PLANETS sweph -> name ≠ "SouthNode" /\ name ≠ "Earth".
Proof.
  intros Hin.
  assert (Hname : name ∈ (PLANETS sweph).*1).
  { apply list_elem_of_fmap. exists (name, planetId). split; [reflexivity|assumption]. }
  rewrite PLANETS_names in Hname.
  repeat (apply elem_of_cons in Hname as [->|Hname]; [split; discriminate|]).
  by apply elem_of_nil in Hname.
Qed.

Lemma bodyPositions_lookup jd name planetId :
  (name, planetId) ∈ PLANETS sweph ->
  bodyPositions sweph jd ∅ !! name = queried jd planetId.
Proof.
  intros Hin. unfold bodyPositions.
  rewrite (positions_lookup_present _ _ _ _ _ PLANETS_NoDup Hin).
  rewrite lookup_empty. reflexivity.
Qed.

Lemma bodyPositions_not_derived jd name :
  name ∉ (PLANETS sweph).*1 -> bodyPositions sweph jd ∅ !! name = None.
Proof.
  intros Hname. unfold bodyPositions.
  rewrite positions_lookup_absent by exact Hname. apply lookup_empty.
Qed.

Lemma addOpposite_other body name positions key :
  key ≠ name -> addOpposite body name positions !! key = positions !! key.
Proof.
  intros Hne. unfold addOpposite.
  destruct (positions !! body); [|reflexivity].
  apply lookup_insert_ne. congruence.
Qed.

Lemma addOpposite_present body name positions g :
  positions !! body = Some g ->
  addOpposite body name positions !! name =
  Some (longitudeToGate ((longitude g + JS.lit 180) %% JS.lit 360)).
Proof. intros Hg. unfold addOpposite. rewrite Hg. apply lookup_insert_eq. Qed.

(** The two derivation steps, as applied to each epoch's map. *)
Local Abbreviation derived positions :=
  (addOpposite "Sun" "Earth" (addOpposite "NorthNode" "SouthNode" positions)).

Lemma chart_maps (birthDate : Date) :
  let chart := calculateChart sweph birthDate in
  personality chart = derived (bodyPositions sweph (birthJulianDay chart) ∅) /\
  design chart = derived (bodyPositions sweph (designJulianDay chart) ∅).
Proof.
  cbv zeta. unfold calculateChart.
  cbn [personality design birthJulianDay designJulianDay].
  split; reflexivity.
Qed.

Lemma derived_tracked positions key :
  key ≠ "SouthNode" -> key ≠ "Earth" -> derived positions !! key = positions !! key.
Proof. intros H1 H2. rewrite !addOpposite_other by assumption. reflexivity. Qed.

(** The opposition law on a map after the two derivation steps. *)
Lemma derived_opposition positions body name g :
  (body, name) ∈ [("Sun", "Earth"); ("NorthNode", "SouthNode")] ->
  derived positions !! body = Some g ->
  derived positions !! name =
  Some (longitudeToGate ((longitude g + JS.lit 180) %% JS.lit 360)).
Proof.
  intros Hpair Hg.
  rewrite derived_tracked in Hg
    by (repeat (apply elem_of_cons in Hpair as [[= -> ->]|Hpair]; [discriminate|]);
        by apply elem_of_nil in Hpair).
  apply elem_of_cons in Hpair as [[= -> ->]|Hpair].
  - apply addOpposite_present. rewrite addOpposite_other by discriminate. exact Hg.
  - apply elem_of_cons in Hpair as [[= -> ->]|Hpair]; [|by apply elem_of_nil in Hpair].
    rewrite addOpposite_other by discriminate.
    apply addOpposite_present. exact Hg.
Qed.

End ChartBuilder.

(** C6. Opposition law.  In each epoch map of a chart, whenever the Sun is
    present, Earth is present and is the gate code of
    [(Sun.longitude + 180) % 360], so that its stored longitude is
    [normalize (Sun.longitude + 180)]; the same holds for the South Node
    with respect to the North Node.  Both are computed from the stored
    longitude, and neither name is among the bodies queried from the
    provider. *)
Theorem opposition_law
    (sweph : Sweph) (birthDate : Date)
    (positions : gmap string GateCode) (body name : string) (g : GateCode) :
  let chart := calculateChart sweph birthDate in
  positions ∈ [personality chart; design chart] ->
  (body, name) ∈ [("Sun", "Earth"); ("NorthNode", "SouthNode")] ->
  positions !! body = Some g ->
  exists o : GateCode,
    positions !! name = Some o /\
    o = longitudeToGate ((longitude g + JS.lit 180) %% JS.lit 360) /\
    longitude o = normalize (longitude g + JS.lit 180) /\
    name ∉ (PLANETS sweph).*1.
Proof.
  intros chart Hmap Hpair Hg.
  exists (longitudeToGate ((longitude g + JS.lit 180) %% JS.lit 360)).
  destruct (chart_maps sweph birthDate) as [Hp Hd]. fold chart in Hp, Hd.
  split; [|split; [reflexivity|split]].
  - apply elem_of_cons in Hmap as [->|Hmap];
      [|apply elem_of_cons in Hmap as [->|Hmap]; [|by apply elem_of_nil in Hmap]].
    + rewrite Hp in Hg |- *. exact (derived_opposition _ _ _ _ Hpair Hg).
    + rewrite Hd in Hg |- *. exact (derived_opposition _ _ _ _ Hpair Hg).
  - rewrite longitude_normalized. apply normalize_rem.
  - rewrite PLANETS_names.
    apply elem_of_cons in Hpair as [[= -> ->]|Hpair];
      [|apply elem_of_cons in Hpair as [[= -> ->]|Hpair];
        [|by apply elem_of_nil in Hpair]];
      rewrite !not_elem_of_cons; repeat split;
        try discriminate; apply not_elem_of_nil.
Qed.

Lemma opposition_law_witness :
  let sweph := circularSweph noneFails in
  let chart := calculateChart sweph fixtureDate in
  let sun := longitudeToGate (normalize (dateToJulian sweph fixtureDate)) in
  personality chart !! "Sun" = Some sun /\
  exists o : GateCode,
    personality chart !! "Earth" = Some o /\
    o = longitudeToGate ((longitude sun + JS.lit 180) %% JS.lit 360) /\
    longitude o = normalize (longitude sun + JS.lit 180) /\
    "Earth" ∉ (PLANETS sweph).*1.
Proof.
  cbv zeta.
  assert (Hsun : personality (calculateChart (circularSweph noneFails) fixtureDate)
                   !! "Sun"
                 = Some (longitudeToGate
                           (normalize (dateToJulian (circularSweph noneFails)
                                                    fixtureDate))))
    by (vm_compute; reflexivity).
  split; [exact Hsun|].
  apply (opposition_law (circularSweph noneFails) fixtureDate
           _ "Sun" "Earth" _).
  - apply list_elem_of_here.
  - apply list_elem_of_here.
  - exact Hsun.
Defined.

(** C8. Partial-result policy.  A chart is produced for every provider and
    birth date, and for each tracked body and each epoch the body is in
    that epoch's map exactly when its own query at that epoch succeeded,
    and is then the gate code of the longitude returned: a failed query
    omits that body from that map and nothing else that was queried. *)
Theorem partial_result_policy
    (sweph : Sweph) (birthDate : Date) (name : string) (planetId : Z) :
  (name, planetId) ∈ PLANETS sweph ->
  let flags := Z.lor (SEFLG_SWIEPH (constants sweph)) (SEFLG_SPEED (constants sweph)) in
  let chart := calculateChart sweph birthDate in
  let atBirth := calc_ut sweph (birthJulianDay chart) planetId flags in
  let atDesign := calc_ut sweph (designJulianDay chart) planetId flags in
  personality chart !! name =
    (if JS.truthy (error atBirth) then None
     else Some (longitudeToGate (data0 atBirth))) /\
  design chart !! name =
    (if JS.truthy (error atDesign) then None
     else Some (longitudeToGate (data0 atDesign))).
Proof.
  intros Hin flags chart atBirth atDesign.
  destruct (chart_maps sweph birthDate) as [Hp Hd]. fold chart in Hp, Hd.
  destruct (PLANETS_not_derived sweph name planetId Hin) as [Hs He].
  rewrite Hp, Hd, !derived_tracked by assumption.
  split; apply bodyPositions_lookup; exact Hin.
Qed.

Lemma partial_result_policy_witness :
  let sweph := circularSweph moonFails in
  let chart := calculateChart sweph fixtureDate in
  ("Moon", 1%Z) ∈ PLANETS sweph /\
  personality chart !! "Moon" = None /\
  design chart !! "Moon" = None.
Proof.
  cbv zeta. split.
  - apply list_elem_of_further, list_elem_of_here.
  - apply (partial_result_policy (circularSweph moonFails) fixtureDate "Moon" 1).
    apply list_elem_of_further, list_elem_of_here.
Defined.

(** C3 at a failing input.  The Sun query of this provider fails at the
    birth epoch (and at every other time).  [calculateChart] does not look
    at [birthSun.error]: it takes the zeroed [data[0]] for the birth Sun
    longitude, runs the design-epoch search on it, and returns a chart,
    whose design time is the fallback [birth - 88] and whose personality
    map lacks the Sun and Earth and holds the other eleven bodies and the
    South Node. *)
Theorem calculateChart_sun_failure_not_fatal :
  let sweph := circularSweph sunFails in
  let flags := Z.lor (SEFLG_SWIEPH (constants sweph)) (SEFLG_SPEED (constants sweph)) in
  let chart := calculateChart sweph fixtureDate in
  JS.truthy (error (calc_ut sweph (dateToJulian sweph fixtureDate)
                            (SE_SUN (constants sweph)) flags)) = true /\
  birthJulianDay chart = JS.lit (293441927 # 120) /\
  designJulianDay chart = birthJulianDay chart - JS.lit 88 /\
  personality chart !! "Sun" = None /\
  personality chart !! "Earth" = None /\
  (formatted <$> personality chart) !! "Moon" = Some "26.4.4.2.3" /\
  size (personality chart) = 12%nat /\
  size (design chart) = 12%nat.
Proof.
  cbv zeta. split; [reflexivity|].
  split; [apply Qc_eq_this; vm_compute; reflexivity|].
  split; [apply Qc_eq_this; vm_compute; reflexivity|].
  repeat split; vm_compute; reflexivity.
Qed.

(** * Binary64 arithmetic: what rounding can and cannot do *)

Local Abbreviation prec := Double.prec.
Local Abbreviation emax := Double.emax.
Local Abbreviation val := Double.val.
Local Abbreviation is_finite := Double.is_finite.
Local Abbreviation sign_bit := Double.sign_bit.
Local Abbreviation encodes := Double.encodes.

Local Open Scope Z_scope.

(** ** Binary digits *)

Section Digits.

Lemma digits2_size (p : positive) : digits2_pos p = Pos.size p.
Proof. induction p; simpl; congruence. Qed.

Lemma Zdigits2_log2 (p : positive) : Zdigits2 (Zpos p) = Z.log2 (Zpos p) + 1.
Proof.
  cbn [Zdigits2]. rewrite digits2_size.
  destruct p as [q|q|]; cbn [Pos.size Z.log2]; rewrite ?Pos2Z.inj_succ; lia.
Qed.

Lemma Zdigits2_spec (m : Z) :
  0 < m -> 1 <= Zdigits2 m /\ 2 ^ (Zdigits2 m - 1) <= m < 2 ^ Zdigits2 m.
Proof.
  intros Hm. destruct m as [|p|p]; try lia.
  rewrite Zdigits2_log2. pose proof (Z.log2_spec (Zpos p) Hm) as H.
  pose proof (Z.log2_nonneg (Zpos p)).
  replace (Z.log2 (Zpos p) + 1 - 1) with (Z.log2 (Zpos p)) by lia.
  replace (Z.log2 (Zpos p) + 1) with (Z.succ (Z.log2 (Zpos p))) by lia.
  split; [lia|exact H].
Qed.

Lemma Zdigits2_unique (m k : Z) :
  1 <= k -> 2 ^ (k - 1) <= m < 2 ^ k -> Zdigits2 m = k.
Proof.
  intros Hk H.
  assert (Hm : 0 < m) by (pose proof (Z.pow_pos_nonneg 2 (k - 1)); lia).
  destruct m as [|p|p]; try lia.
  rewrite Zdigits2_log2.
  rewrite (Z.log2_unique (Zpos p) (k - 1)); [lia|lia|].
  replace (Z.succ (k - 1)) with k by lia. exact H.
Qed.

Lemma Zdigits2_nonneg (m : Z) : 0 <= Zdigits2 m.
Proof. destruct m; simpl; lia. Qed.

(** [m < 2 ^ k] bounds the number of digits. *)
Lemma Zdigits2_le (m k : Z) : 0 < m -> m < 2 ^ k -> Zdigits2 m <= k.
Proof.
  intros Hm Hk. destruct (Zdigits2_spec m Hm) as [H1 [H2 _]].
  destruct (Z_lt_le_dec k (Zdigits2 m)) as [Hlt|]; [|assumption].
  assert (0 <= k).
  { destruct (Z_lt_le_dec k 0); [|assumption].
    rewrite Z.pow_neg_r in Hk by assumption. lia. }
  assert (2 ^ k <= 2 ^ (Zdigits2 m - 1)) by (apply Z.pow_le_mono_r; lia).
  lia.
Qed.

Lemma Zdigits2_ge (m k : Z) : 0 <= k -> 2 ^ k <= m -> k + 1 <= Zdigits2 m.
Proof.
  intros Hk Hm.
  assert (0 < m) by (pose proof (Z.pow_pos_nonneg 2 k); lia).
  destruct (Zdigits2_spec m H) as [H1 [_ H2]].
  destruct (Z_lt_le_dec (Zdigits2 m) (k + 1)) as [Hlt|]; [|assumption].
  assert (2 ^ Zdigits2 m <= 2 ^ k) by (apply Z.pow_le_mono_r; lia).
  lia.
Qed.

Lemma Zdigits2_div (m n : Z) :
  0 < m -> 0 <= n -> n < Zdigits2 m -> Zdigits2 (m / 2 ^ n) = Zdigits2 m - n.
Proof.
  intros Hm Hn Hlt. destruct (Zdigits2_spec m Hm) as [H1 [H2 H3]].
  pose proof (Z.pow_pos_nonneg 2 n ltac:(lia) Hn) as Hp.
  apply Zdigits2_unique; [lia|]. split.
  - apply Z.div_le_lower_bound; [assumption|].
    rewrite <- Z.pow_add_r by lia.
    replace (n + (Zdigits2 m - n - 1)) with (Zdigits2 m - 1) by lia. assumption.
  - apply Z.div_lt_upper_bound; [assumption|].
    rewrite <- Z.pow_add_r by lia.
    replace (n + (Zdigits2 m - n)) with (Zdigits2 m) by lia. assumption.
Qed.

Lemma Zdigits2_div_zero (m n : Z) :
  0 <= m -> 0 <= n -> Zdigits2 m <= n -> m / 2 ^ n = 0.
Proof.
  intros Hm Hn Hle. apply Z.div_small. split; [assumption|].
  destruct (Z.eq_dec m 0) as [->|]; [apply Z.pow_pos_nonneg; lia|].
  destruct (Zdigits2_spec m ltac:(lia)) as [_ [_ H]].
  assert (2 ^ Zdigits2 m <= 2 ^ n) by (apply Z.pow_le_mono_r; lia). lia.
Qed.

Lemma Zdigits2_mul_pow2 (m n : Z) :
  0 < m -> 0 <= n -> Zdigits2 (m * 2 ^ n) = Zdigits2 m + n.
Proof.
  intros Hm Hn. destruct (Zdigits2_spec m Hm) as [H1 [H2 H3]].
  pose proof (Z.pow_pos_nonneg 2 n ltac:(lia) Hn) as Hp.
  apply Zdigits2_unique; [lia|].
  replace (Zdigits2 m + n - 1) with ((Zdigits2 m - 1) + n) by lia.
  rewrite !Z.pow_add_r by lia. split; nia.
Qed.

End Digits.

(** ** Shifting a mantissa right *)

Section Shift.

Lemma shr_1_m (r : shr_record) :
  0 <= shr_m r -> shr_m (shr_1 r) = shr_m r / 2.
Proof.
  destruct r as [m b s]. simpl. intros Hm.
  destruct m as [|[p|p|]|p]; cbn [shr_m]; try lia.
  - reflexivity.
  - apply Z.div_unique with 1; lia.
  - apply Z.div_unique with 0; lia.
  - reflexivity.
Qed.

Lemma iter_shr_1_m (p : positive) (r : shr_record) :
  0 <= shr_m r -> shr_m (iter_pos shr_1 p r) = shr_m r / 2 ^ Zpos p.
Proof.
  revert r. induction p as [p IH|p IH|]; intros r Hr; simpl iter_pos.
  - assert (H1 : 0 <= shr_m (shr_1 r)) by (rewrite shr_1_m by assumption; apply Z.div_pos; lia).
    assert (H2 : 0 <= shr_m (iter_pos shr_1 p (shr_1 r)))
      by (rewrite IH by assumption; apply Z.div_pos; [assumption|apply Z.pow_pos_nonneg; lia]).
    rewrite IH, IH, shr_1_m by assumption.
    rewrite !Z.div_div by (try apply Z.pow_pos_nonneg; lia).
    f_equal. rewrite <- Z.pow_add_r by lia. rewrite <- (Z.pow_1_r 2) at 1.
    rewrite <- Z.pow_add_r by lia. f_equal. lia.
  - assert (H2 : 0 <= shr_m (iter_pos shr_1 p r))
      by (rewrite IH by assumption; apply Z.div_pos; [assumption|apply Z.pow_pos_nonneg; lia]).
    rewrite IH, IH by assumption.
    rewrite !Z.div_div by (try apply Z.pow_pos_nonneg; lia).
    f_equal. rewrite <- Z.pow_add_r by lia. f_equal. lia.
  - rewrite shr_1_m by assumption. reflexivity.
Qed.

Lemma shr_spec (r : shr_record) (e n : Z) :
  0 <= shr_m r ->
  shr_m (fst (shr r e n)) = shr_m r / 2 ^ Z.max 0 n /\
  snd (shr r e n) = e + Z.max 0 n.
Proof.
  intros Hr. destruct n as [|p|p]; simpl.
  - rewrite Z.div_1_r. split; [reflexivity|lia].
  - rewrite iter_shr_1_m by assumption. split; reflexivity.
  - rewrite Z.div_1_r. split; [reflexivity|lia].
Qed.

Lemma shr_record_of_loc_m (m : Z) (l : location) : shr_m (shr_record_of_loc m l) = m.
Proof. destruct l as [|[]]; reflexivity. Qed.

Lemma shr_fexp_spec (m e : Z) (l : location) :
  0 <= m ->
  let E := Z.max e (fexp prec emax (Zdigits2 m + e)) in
  shr_m (fst (shr_fexp prec emax m e l)) = m / 2 ^ (E - e) /\
  snd (shr_fexp prec emax m e l) = E.
Proof.
  intros Hm E. unfold shr_fexp.
  destruct (shr_spec (shr_record_of_loc m l) e
              (fexp prec emax (Zdigits2 m + e) - e)) as [H1 H2].
  { rewrite shr_record_of_loc_m. assumption. }
  rewrite shr_record_of_loc_m in H1. rewrite H1, H2.
  replace (Z.max 0 (fexp prec emax (Zdigits2 m + e) - e)) with (E - e) by (unfold E; lia).
  split; [reflexivity|lia].
Qed.

Lemma round_nearest_even_cases (m : Z) (l : location) :
  round_nearest_even m l = m \/ round_nearest_even m l = m + 1.
Proof. destruct l as [|[]]; simpl; auto. destruct (Z.even m); auto. Qed.

Lemma round_nearest_even_exact (m : Z) : round_nearest_even m loc_Exact = m.
Proof. reflexivity. Qed.

End Shift.

(** ** Rounding a mantissa to the format *)

Section RoundAux.

Lemma fexp_eq (k : Z) : fexp prec emax k = Z.max (k - 53) (-1074).
Proof. reflexivity. Qed.

Lemma bounded_intro (m : positive) (e : Z) :
  fexp prec emax (Zdigits2 (Zpos m) + e) = e -> e <= 971 ->
  bounded prec emax m e = true.
Proof.
  intros Hc He. unfold bounded, canonical_mantissa.
  change (Zpos (digits2_pos m)) with (Zdigits2 (Zpos m)).
  rewrite Hc, Z.eqb_refl. simpl. apply Z.leb_le. exact He.
Qed.

Lemma bounded_elim (m : positive) (e : Z) :
  bounded prec emax m e = true ->
  fexp prec emax (Zdigits2 (Zpos m) + e) = e /\ e <= 971.
Proof.
  unfold bounded, canonical_mantissa. intros H.
  apply andb_true_iff in H as [H1 H2].
  apply Z.eqb_eq in H1. apply Z.leb_le in H2. split; assumption.
Qed.

(** A second pass of [shr_fexp] over a canonical mantissa changes
    nothing. *)
Lemma finish_canonical (s : bool) (m1 E : Z) :
  0 < m1 -> fexp prec emax (Zdigits2 m1 + E) = E -> E <= 971 ->
  encodes s m1 E
    (let '(mrs, e) := shr_fexp prec emax m1 E loc_Exact in
     match shr_m mrs with
     | Z0 => S754_zero s
     | Zpos m => if Z.leb e (emax - prec) then S754_finite s m e else S754_infinity s
     | Zneg _ => S754_nan
     end).
Proof.
  intros Hm Hc He.
  destruct (shr_fexp_spec m1 E loc_Exact ltac:(lia)) as [H1 H2].
  destruct (shr_fexp prec emax m1 E loc_Exact) as [mrs e]. simpl in H1, H2.
  rewrite Hc, Z.max_id in H1, H2. rewrite Z.sub_diag, Z.div_1_r in H1.
  subst e. rewrite H1. destruct m1 as [|m|m]; try lia.
  replace (E <=? emax - prec) with true by (symmetry; apply Z.leb_le; change (emax - prec) with 971; lia).
  right. exists m, E. split; [reflexivity|]. split; [apply bounded_intro; assumption|].
  split; [lia|]. rewrite Z.sub_diag. lia.
Qed.

Lemma binary_round_aux_spec (s : bool) (mx ex : Z) (lx : location) :
  0 <= mx ->
  ex <= fexp prec emax (Zdigits2 mx + ex) ->
  fexp prec emax (Zdigits2 mx + ex) < 971 ->
  let E := fexp prec emax (Zdigits2 mx + ex) in
  let T := mx / 2 ^ (E - ex) in
  exists T', (T' = T \/ T' = T + 1) /\
             encodes s T' E (binary_round_aux prec emax s mx ex lx).
Proof.
  intros Hmx Hex HE. cbv zeta.
  destruct (shr_fexp_spec mx ex lx Hmx) as [H1 H2].
  unfold binary_round_aux.
  destruct (shr_fexp prec emax mx ex lx) as [mrs' e']. simpl in H1, H2.
  remember (fexp prec emax (Zdigits2 mx + ex)) as E eqn:HEdef.
  replace (Z.max ex E) with E in H1, H2 by lia.
  remember (mx / 2 ^ (E - ex)) as T eqn:HTdef.
  subst e'. rewrite H1.
  remember (round_nearest_even T (loc_of_shr_record mrs')) as m1 eqn:Hm1def.
  assert (HT0 : 0 <= T) by (subst T; apply Z.div_pos; [assumption|apply Z.pow_pos_nonneg; lia]).
  pose proof (fexp_eq (Zdigits2 mx + ex)) as HEeq. rewrite <- HEdef in HEeq.
  assert (HEmin : -1074 <= E) by lia.
  (* canonicity of a positive truncation *)
  assert (KT : 0 < T -> fexp prec emax (Zdigits2 T + E) = E).
  { intros HT. destruct (Z.eq_dec E ex) as [Heq|Hne].
    - rewrite HTdef. replace (E - ex) with 0 by lia. rewrite Z.div_1_r.
      replace (Zdigits2 mx + E) with (Zdigits2 mx + ex) by lia. congruence.
    - assert (Hmxpos : 0 < mx).
      { destruct (Z.eq_dec mx 0) as [Hz|]; [|lia]. rewrite HTdef, Hz in HT.
        rewrite Z.div_0_l in HT; [lia|]. apply Z.pow_nonzero; lia. }
      assert (Hlt : E - ex < Zdigits2 mx).
      { destruct (Z_lt_le_dec (E - ex) (Zdigits2 mx)); [assumption|].
        rewrite HTdef in HT. rewrite Zdigits2_div_zero in HT; lia. }
      rewrite HTdef. rewrite Zdigits2_div by lia.
      replace (Zdigits2 mx - (E - ex) + E) with (Zdigits2 mx + ex) by lia.
      congruence. }
  (* a zero truncation only happens at the bottom exponent *)
  assert (K0 : T = 0 -> E = -1074).
  { intros HT.
    destruct (Z.eq_dec mx 0) as [Hz|Hne].
    { assert (Hd : Zdigits2 mx = 0) by (rewrite Hz; reflexivity).
      clear - Hex HEeq Hd. lia. }
    destruct (Z_lt_le_dec (E - ex) (Zdigits2 mx)) as [Hlt|Hge].
    - exfalso. pose proof (Zdigits2_div mx (E - ex) ltac:(lia) ltac:(lia) Hlt) as Hd.
      rewrite <- HTdef, HT in Hd. simpl in Hd. lia.
    - lia. }
  clear HTdef HEdef.
  destruct (round_nearest_even_cases T (loc_of_shr_record mrs')) as [Hm1|Hm1];
    rewrite <- Hm1def in Hm1; clear Hm1def.
  - (* no increment *)
    exists T. split; [left; reflexivity|]. rewrite Hm1.
    destruct (Z.eq_dec T 0) as [HT|HT].
    + left. split; [assumption|]. rewrite HT.
      destruct (shr_fexp_spec 0 E loc_Exact ltac:(lia)) as [G1 G2].
      destruct (shr_fexp prec emax 0 E loc_Exact) as [mrs e]. simpl in G1, G2.
      rewrite Z.div_0_l in G1 by (apply Z.pow_nonzero; [lia|]; rewrite fexp_eq; lia).
      rewrite G1. reflexivity.
    + apply finish_canonical; [lia|apply KT; lia|lia].
  - (* increment *)
    exists (T + 1). split; [right; reflexivity|]. rewrite Hm1.
    destruct (Z.eq_dec T 0) as [HT|HT].
    + rewrite HT. simpl (0 + 1). apply finish_canonical; [lia| |lia].
      rewrite (K0 HT). reflexivity.
    + assert (HTpos : 0 < T) by lia.
      pose proof (KT HTpos) as Hc.
      destruct (Zdigits2_spec T HTpos) as [Hd1 [Hd2 Hd3]].
      destruct (Z.eq_dec (T + 1) (2 ^ Zdigits2 T)) as [Hcarry|Hnc].
      * (* carry into a new digit *)
        assert (Hdg : Zdigits2 (T + 1) = Zdigits2 T + 1).
        { apply Zdigits2_unique; [lia|].
          replace (Zdigits2 T + 1 - 1) with (Zdigits2 T) by lia.
          rewrite Hcarry. split; [lia|]. apply Z.pow_lt_mono_r; lia. }
        rewrite fexp_eq in Hc.
        destruct (Z.eq_dec (Zdigits2 T) 53) as [H53|H53].
        -- (* normal: renormalise one place *)
           destruct (shr_fexp_spec (T + 1) E loc_Exact ltac:(lia)) as [G1 G2].
           destruct (shr_fexp prec emax (T + 1) E loc_Exact) as [mrs e]. simpl in G1, G2.
           rewrite Hdg, fexp_eq in G1, G2.
           replace (Z.max E (Z.max (Zdigits2 T + 1 + E - 53) (-1074))) with (E + 1) in G1, G2 by lia.
           replace (E + 1 - E) with 1 in G1 by lia.
           rewrite Hcarry, H53 in G1. change (2 ^ 53 / 2 ^ 1) with (Zpos (2 ^ 52)) in G1.
           subst e. rewrite G1.
           replace (E + 1 <=? emax - prec) with true
             by (symmetry; apply Z.leb_le; change (emax - prec) with 971; lia).
           right. exists (2 ^ 52)%positive, (E + 1). split; [reflexivity|].
           split; [apply bounded_intro; [|lia]|].
           { change (Zdigits2 (Zpos (2 ^ 52))) with 53. rewrite fexp_eq. lia. }
           split; [lia|]. replace (E + 1 - E) with 1 by lia.
           rewrite Hcarry, H53. reflexivity.
        -- apply finish_canonical; [lia| |lia].
           rewrite Hdg, fexp_eq. lia.
      * assert (Hdg : Zdigits2 (T + 1) = Zdigits2 T).
        { apply Zdigits2_unique; [lia|]. lia. }
        apply finish_canonical; [lia| |lia]. rewrite Hdg. exact Hc.
Qed.

End RoundAux.

(** ** Rounding a number [m * 2 ^ e] *)

Section BinaryRound.

Lemma iter_xO (p d : positive) : Zpos (Pos.iter xO p d) = Zpos p * 2 ^ Zpos d.
Proof.
  induction d as [|d IH] using Pos.peano_ind.
  - simpl. lia.
  - rewrite Pos.iter_succ, Pos2Z.inj_xO, IH, Pos2Z.inj_succ, Z.pow_succ_r by lia. lia.
Qed.

Lemma shl_align_spec (mx : positive) (ex ex' : Z) :
  snd (shl_align mx ex ex') = Z.min ex ex' /\
  Zpos (fst (shl_align mx ex ex')) = Zpos mx * 2 ^ (ex - Z.min ex ex').
Proof.
  unfold shl_align. destruct (ex' - ex) as [|d|d] eqn:Hd; cbn [fst snd].
  - replace (Z.min ex ex') with ex by lia. rewrite Z.sub_diag, Z.pow_0_r. lia.
  - replace (Z.min ex ex') with ex by lia. rewrite Z.sub_diag, Z.pow_0_r. lia.
  - replace (Z.min ex ex') with ex' by lia. rewrite iter_xO.
    replace (ex - ex') with (Zpos d) by lia. split; reflexivity.
Qed.

(** With no digits to drop, rounding returns the number itself. *)
Lemma binary_round_aux_exact (s : bool) (m : positive) (e : Z) :
  fexp prec emax (Zdigits2 (Zpos m) + e) = e -> e <= 971 ->
  binary_round_aux prec emax s (Zpos m) e loc_Exact = S754_finite s m e.
Proof.
  intros Hc He. unfold binary_round_aux, shr_fexp.
  rewrite Hc, Z.sub_diag. cbn [shr shr_record_of_loc loc_of_shr_record shr_m round_nearest_even].
  rewrite Hc, Z.sub_diag. cbn [shr shr_record_of_loc shr_m].
  replace (e <=? emax - prec) with true
    by (symmetry; apply Z.leb_le; change (emax - prec) with 971; lia).
  reflexivity.
Qed.

(** [binary_round] on a number that needs no rounding. *)
Lemma binary_round_exact (s : bool) (mx : positive) (ex : Z) :
  let E := fexp prec emax (Zdigits2 (Zpos mx) + ex) in
  E <= ex -> E <= 971 ->
  exists m, binary_round prec emax s mx ex = S754_finite s m E /\
            Zpos m = Zpos mx * 2 ^ (ex - E) /\
            bounded prec emax m E = true.
Proof.
  intros E HE H971. unfold binary_round.
  change (Zpos (digits2_pos mx)) with (Zdigits2 (Zpos mx)). fold E.
  destruct (shl_align_spec mx ex E) as [H1 H2].
  destruct (shl_align mx ex E) as [mz ez]. cbn [fst snd] in H1, H2.
  replace (Z.min ex E) with E in H1, H2 by lia. subst ez.
  assert (Hc : fexp prec emax (Zdigits2 (Zpos mz) + E) = E).
  { assert (Hd : Zdigits2 (Zpos mz) = Zdigits2 (Zpos mx) + (ex - E))
      by (rewrite H2; apply Zdigits2_mul_pow2; lia).
    rewrite Hd.
    replace (Zdigits2 (Zpos mx) + (ex - E) + E) with (Zdigits2 (Zpos mx) + ex) by lia.
    reflexivity. }
  exists mz. split; [apply binary_round_aux_exact; assumption|].
  split; [exact H2|]. apply bounded_intro; assumption.
Qed.

(** [binary_round] in general: the result is the truncation of the number
    to the exponent [E], or one unit above it. *)
Lemma binary_round_spec (s : bool) (mx : positive) (ex : Z) :
  let E := fexp prec emax (Zdigits2 (Zpos mx) + ex) in
  E < 971 ->
  exists T', encodes s T' E (binary_round prec emax s mx ex) /\
    ((E <= ex /\ T' = Zpos mx * 2 ^ (ex - E)) \/
     (ex < E /\ (T' = Zpos mx / 2 ^ (E - ex) \/ T' = Zpos mx / 2 ^ (E - ex) + 1))).
Proof.
  intros E HE. destruct (Z_le_gt_dec E ex) as [Hle|Hgt].
  - destruct (binary_round_exact s mx ex Hle ltac:(lia)) as (m & Hr & Hm & Hb).
    fold E in Hr, Hm, Hb.
    exists (Zpos mx * 2 ^ (ex - E)). split; [|left; split; [assumption|reflexivity]].
    right. exists m, E. rewrite Z.sub_diag.
    split; [exact Hr|]. split; [exact Hb|]. split; [lia|]. lia.
  - unfold binary_round.
    change (Zpos (digits2_pos mx)) with (Zdigits2 (Zpos mx)). fold E.
    destruct (shl_align_spec mx ex E) as [H1 H2].
    destruct (shl_align mx ex E) as [mz ez]. cbn [fst snd] in H1, H2.
    replace (Z.min ex E) with ex in H1, H2 by lia. subst ez.
    rewrite Z.sub_diag, Z.pow_0_r, Z.mul_1_r in H2.
    injection H2 as ->.
    destruct (binary_round_aux_spec s (Zpos mx) ex loc_Exact) as (T' & HT' & Henc).
    + lia.
    + fold E. lia.
    + fold E. lia.
    + fold E in HT', Henc. exists T'. split; [exact Henc|].
      right. split; [lia|exact HT'].
Qed.

End BinaryRound.

(** ** The value of a double *)

Section Value.

Local Open Scope Q_scope.

Lemma two_pow_pos (e : Z) : 0 < 2 ^ e.
Proof. apply Qpower_0_lt. reflexivity. Qed.

Lemma two_pow_plus (a b : Z) : 2 ^ (a + b) == 2 ^ a * 2 ^ b.
Proof. apply Qpower_plus. discriminate. Qed.

Lemma two_pow_Z (n : Z) : (0 <= n)%Z -> inject_Z (2 ^ n) == 2 ^ n.
Proof. intros Hn. rewrite Zpower_Qpower by assumption. reflexivity. Qed.

Lemma two_pow_le (a b : Z) : (a <= b)%Z -> 2 ^ a <= 2 ^ b.
Proof. intros H. apply Qpower_le_compat_l; [assumption|]. discriminate. Qed.

Lemma inject_cond_Zopp (s : bool) (m : Z) :
  inject_Z (cond_Zopp s m) == if s then - inject_Z m else inject_Z m.
Proof. destruct s; simpl; [rewrite inject_Z_opp|]; reflexivity. Qed.

Lemma encodes_facts (s : bool) (T E : Z) (r : spec_float) :
  encodes s T E r ->
  valid_binary prec emax r = true /\ is_finite r = true /\ sign_bit r = s /\
  val r == inject_Z (cond_Zopp s T) * 2 ^ E.
Proof.
  intros [[-> ->]|(m & e & -> & Hb & He & Hm)].
  - split; [reflexivity|]. split; [reflexivity|]. split; [reflexivity|].
    cbn [val]. destruct s; cbn [cond_Zopp]; change (inject_Z (- 0)) with 0;
      change (inject_Z 0) with 0; ring.
  - split; [exact Hb|]. split; [reflexivity|]. split; [reflexivity|].
    cbn [val]. rewrite <- Hm.
    assert (Hp : inject_Z (Zpos m * 2 ^ (e - E)) * 2 ^ E == inject_Z (Zpos m) * 2 ^ e).
    { rewrite inject_Z_mult, two_pow_Z by lia.
      replace e with ((e - E) + E)%Z at 2 by lia. rewrite two_pow_plus. ring. }
    destruct s; cbn [cond_Zopp]; rewrite ?inject_Z_opp.
    + transitivity (- (inject_Z (Zpos m) * 2 ^ e)); [ring|]. rewrite <- Hp. ring.
    + rewrite <- Hp. reflexivity.
Qed.

End Value.

(** ** The remainder [%] *)

Section Operations.

Local Open Scope Z_scope.

Lemma bounded_range (m : positive) (e : Z) :
  bounded prec emax m e = true ->
  -1074 <= e <= 971 /\ Zdigits2 (Zpos m) <= 53 /\ Zpos m < 2 ^ 53.
Proof.
  intros Hb. apply bounded_elim in Hb as [Hc He]. rewrite fexp_eq in Hc.
  assert (Hd : Zdigits2 (Zpos m) <= 53) by lia.
  split; [lia|]. split; [exact Hd|].
  destruct (Zdigits2_spec (Zpos m) ltac:(lia)) as [_ [_ H]].
  assert (2 ^ Zdigits2 (Zpos m) <= 2 ^ 53) by (apply Z.pow_le_mono_r; lia). lia.
Qed.

Lemma val_finite_pos (m : positive) (e : Z) : (0 < val (S754_finite false m e))%Q.
Proof.
  cbn [Double.val cond_Zopp]. apply Qmult_lt_0_compat; [reflexivity|apply two_pow_pos].
Qed.

Lemma val_sign_false (x : spec_float) : sign_bit x = false -> (0 <= val x)%Q.
Proof.
  destruct x as [s|s| |s m e]; cbn [Double.sign_bit Double.val]; intros Hs;
    try (apply Qle_refl).
  subst s. apply Qlt_le_weak, val_finite_pos.
Qed.

(** [x % y] for a finite [x] and a positive finite [y] is a finite double
    with the sign of [x] and a magnitude below [y]. *)
Lemma rem_finite (x : spec_float) (my : positive) (ey : Z) :
  Double.finite x -> bounded prec emax my ey = true ->
  Double.finite (Double.rem x (S754_finite false my ey)) /\
  sign_bit (Double.rem x (S754_finite false my ey)) = sign_bit x /\
  (- val (S754_finite false my ey) < val (Double.rem x (S754_finite false my ey)) /\
   val (Double.rem x (S754_finite false my ey)) < val (S754_finite false my ey))%Q.
Proof.
  intros [Hv Hf] Hy. pose proof (val_finite_pos my ey) as Hypos.
  destruct x as [s|s| |sx mx ex]; try discriminate Hf.
  - (* zero *)
    cbn [Double.rem]. split; [split; reflexivity|]. split; [reflexivity|].
    set (vy := val (S754_finite false my ey)) in *. clearbody vy.
    cbn [Double.val]. split; lra.
  - cbn [valid_binary] in Hv.
    destruct (bounded_range _ _ Hv) as (Hex & Hdx & Hmx).
    destruct (bounded_range _ _ Hy) as (Hey & Hdy & Hmy).
    cbn [Double.rem]. cbv zeta.
    set (e := Z.min ex ey).
    set (X := Zpos mx * 2 ^ (ex - e)). set (Y := Zpos my * 2 ^ (ey - e)).
    assert (HY : 0 < Y) by (apply Z.mul_pos_pos; [lia|apply Z.pow_pos_nonneg; lia]).
    assert (HX : 0 <= X) by (apply Z.mul_nonneg_nonneg; [lia|apply Z.pow_nonneg; lia]).
    pose proof (Z.mod_pos_bound X Y HY) as [HR0 HR1].
    assert (HR53 : X mod Y < 2 ^ 53).
    { destruct (Z_le_gt_dec ex ey).
      - assert (Hle : X mod Y <= X) by (apply Z.mod_le; lia).
        unfold X in Hle at 2. replace (ex - e) with 0 in Hle by lia.
        rewrite Z.pow_0_r in Hle. lia.
      - assert (HYe : Y = Zpos my).
        { unfold Y. replace (ey - e) with 0 by lia. rewrite Z.pow_0_r. lia. }
        lia. }
    assert (HYval : (inject_Z Y * 2 ^ e == val (S754_finite false my ey))%Q).
    { unfold Y. cbn [Double.val cond_Zopp].
      rewrite inject_Z_mult, two_pow_Z by lia.
      replace ey with ((ey - e) + e) at 2 by lia. rewrite two_pow_plus. ring. }
    set (vy := val (S754_finite false my ey)) in *. clearbody vy.
    set (R := X mod Y) in *. clearbody R. clear X HX.
    destruct (Z.eq_dec R 0) as [->|HRne].
    + (* exact multiple *)
      replace (cond_Zopp sx 0) with 0 by (destruct sx; reflexivity).
      cbn [binary_normalize]. split; [split; reflexivity|]. split; [reflexivity|].
      cbn [Double.val]. split; lra.
    + destruct R as [|p|p]; try lia.
      assert (Hdp : Zdigits2 (Zpos p) <= 53) by (apply Zdigits2_le; lia).
      assert (HE : fexp prec emax (Zdigits2 (Zpos p) + e) <= e)
        by (rewrite fexp_eq; unfold e; lia).
      assert (Hnorm : binary_normalize prec emax (cond_Zopp sx (Zpos p)) e sx
                      = binary_round prec emax sx p e) by (destruct sx; reflexivity).
      rewrite Hnorm.
      destruct (binary_round_exact sx p e HE ltac:(unfold e in *; lia))
        as (m & -> & Hm & Hb).
      set (E := fexp prec emax (Zdigits2 (Zpos p) + e)) in *.
      split; [split; [exact Hb|reflexivity]|]. split; [reflexivity|].
      assert (Hval : (inject_Z (Zpos m) * 2 ^ E == inject_Z (Zpos p) * 2 ^ e)%Q).
      { rewrite Hm, inject_Z_mult, two_pow_Z by lia.
        replace e with ((e - E) + E) at 2 by lia. rewrite two_pow_plus. ring. }
      assert (Hlt : (inject_Z (Zpos p) * 2 ^ e < vy)%Q).
      { rewrite <- HYval. apply Qmult_lt_r; [apply two_pow_pos|].
        rewrite <- Zlt_Qlt. exact HR1. }
      assert (Hpos : (0 < inject_Z (Zpos p) * 2 ^ e)%Q)
        by (apply Qmult_lt_0_compat; [reflexivity|apply two_pow_pos]).
      cbn [Double.val]. destruct sx; cbn [cond_Zopp].
      * change (inject_Z (- Zpos m)) with (- inject_Z (Zpos m))%Q.
        set (a := inject_Z (Zpos m)) in *. set (b := (2 ^ E)%Q) in *.
        set (c := (inject_Z (Zpos p) * 2 ^ e)%Q) in *.
        clearbody a b c. split; lra.
      * set (a := inject_Z (Zpos m)) in *. set (b := (2 ^ E)%Q) in *.
        set (c := (inject_Z (Zpos p) * 2 ^ e)%Q) in *.
        clearbody a b c. split; lra.
Qed.

End Operations.

(** ** Digits from a bound on the value *)

Section Scaling.

Local Open Scope Z_scope.

Lemma two_pow_split (a b : Z) : (2 ^ a == 2 ^ (a - b) * 2 ^ b)%Q.
Proof. rewrite <- two_pow_plus. replace (a - b + b) with a by lia. reflexivity. Qed.

(** A positive integer [p] with [p * 2 ^ e < 2 ^ k] has at most [k - e]
    binary digits. *)
Lemma digits_scaled (p e k : Z) :
  0 < p -> (inject_Z p * 2 ^ e < 2 ^ k)%Q -> Zdigits2 p + e <= k.
Proof.
  intros Hp H. destruct (Z_le_gt_dec e k) as [Hek|Hek].
  - assert (Hlt : p < 2 ^ (k - e)).
    { rewrite Zlt_Qlt, two_pow_Z by lia.
      apply (Qmult_lt_r _ _ (2 ^ e)%Q); [apply two_pow_pos|].
      rewrite <- two_pow_split. exact H. }
    pose proof (Zdigits2_le p (k - e) Hp Hlt). lia.
  - exfalso. assert (H1 : (2 ^ k <= 2 ^ e)%Q) by (apply two_pow_le; lia).
    assert (H2 : (1 <= inject_Z p)%Q) by (change 1%Q with (inject_Z 1); rewrite <- Zle_Qle; lia).
    pose proof (two_pow_pos e) as H3.
    set (a := inject_Z p) in *. set (b := (2 ^ e)%Q) in *. set (c := (2 ^ k)%Q) in *.
    clearbody a b c.
    assert (H4 : (1 * b <= a * b)%Q) by (apply Qmult_le_compat_r; lra).
    lra.
Qed.

End Scaling.

(** ** Addition *)

Section Addition.

Local Open Scope Z_scope.

(** [x + y] for a finite [x] and a positive finite [y] whose exact sum is
    positive and far from overflow: a finite double, not negative. *)
Lemma add_finite (x : spec_float) (my : positive) (ey : Z) :
  Double.finite x -> bounded prec emax my ey = true ->
  (0 < val x + val (S754_finite false my ey))%Q ->
  (val x + val (S754_finite false my ey) < 2 ^ 1000)%Q ->
  Double.finite (Double.add x (S754_finite false my ey)) /\
  sign_bit (Double.add x (S754_finite false my ey)) = false.
Proof.
  intros [Hv Hf] Hy Hpos Hlt.
  destruct x as [s|s| |sx mx ex]; try discriminate Hf.
  - cbn. split; [split; [exact Hy|reflexivity]|reflexivity].
  - unfold Double.add. cbn [SFadd]. cbv zeta.
    destruct (shl_align_spec mx ex (Z.min ex ey)) as [_ Hmx].
    destruct (shl_align_spec my ey (Z.min ex ey)) as [_ Hmy].
    replace (Z.min ex (Z.min ex ey)) with (Z.min ex ey) in Hmx by lia.
    replace (Z.min ey (Z.min ex ey)) with (Z.min ex ey) in Hmy by lia.
    set (ez := Z.min ex ey) in *.
    set (X := Zpos (fst (shl_align mx ex ez))) in *.
    set (Y := Zpos (fst (shl_align my ey ez))) in *.
    assert (HS : (inject_Z (cond_Zopp sx X + cond_Zopp false Y) * 2 ^ ez ==
                  val (S754_finite sx mx ex) + val (S754_finite false my ey))%Q).
    { assert (Hex : 0 <= ex - ez) by (unfold ez; lia).
      assert (Hey : 0 <= ey - ez) by (unfold ez; lia).
      rewrite Hmx, Hmy. cbn [Double.val].
      rewrite (two_pow_split ex ez), (two_pow_split ey ez).
      destruct sx; cbn [cond_Zopp];
        rewrite inject_Z_plus, ?inject_Z_opp, !inject_Z_mult, !two_pow_Z by assumption;
        ring. }
    rewrite <- HS in Hpos, Hlt. clear HS.
    set (S := cond_Zopp sx X + cond_Zopp false Y) in *. clearbody S.
    assert (HSpos : 0 < S).
    { destruct (Z_lt_le_dec 0 S) as [|Hle]; [assumption|exfalso].
      rewrite Zle_Qle in Hle. pose proof (two_pow_pos ez) as Hp.
      change (inject_Z 0) with 0%Q in Hle.
      set (a := inject_Z S) in *. set (b := (2 ^ ez)%Q) in *. clearbody a b.
      assert (H0 : (a * b <= 0 * b)%Q) by (apply Qmult_le_compat_r; lra). lra. }
    pose proof (digits_scaled S ez 1000 HSpos Hlt) as Hd.
    destruct S as [|p|p]; try lia.
    cbn [binary_normalize].
    destruct (binary_round_spec false p ez) as (T' & Henc & _).
    { rewrite fexp_eq. lia. }
    apply encodes_facts in Henc as (H1 & H2 & H3 & _).
    split; [split; assumption|assumption].
Qed.

End Addition.

(** ** Division *)

Section Division.

Local Open Scope Z_scope.

Lemma div_core_spec (m1 e1 m2 e2 : Z) :
  0 < m1 -> 0 < m2 ->
  let e' := Z.min (fexp prec emax (Zdigits2 m1 + e1 - (Zdigits2 m2 + e2))) (e1 - e2) in
  exists l, SFdiv_core_binary prec emax m1 e1 m2 e2
            = (m1 * 2 ^ (e1 - e2 - e') / m2, e', l).
Proof.
  intros H1 H2 e'. unfold SFdiv_core_binary. cbv zeta. fold e'.
  assert (Hs : 0 <= e1 - e2 - e') by (unfold e'; lia).
  set (s := e1 - e2 - e') in *.
  assert (Hm : match s with Z.pos _ => Z.shiftl m1 s | 0 => m1 | Z.neg _ => 0 end
               = m1 * 2 ^ s).
  { destruct s as [|p|p]; [rewrite Z.pow_0_r; lia|apply Z.shiftl_mul_pow2; lia|lia]. }
  rewrite Hm. unfold Z.div.
  destruct (Z.div_eucl (m1 * 2 ^ s) m2) as [q r]. eexists. reflexivity.
Qed.

(** The quotient digit count never falls below what the exponent chosen by
    the division asks for. *)
Lemma div_quotient_lower (m1 m2 s : Z) :
  0 < m1 -> 0 < m2 -> 0 <= s ->
  1 <= Zdigits2 m1 + s - Zdigits2 m2 ->
  Zdigits2 m1 + s - Zdigits2 m2 <= Zdigits2 (m1 * 2 ^ s / m2).
Proof.
  intros H1 H2 Hs Hd.
  destruct (Zdigits2_spec m1 H1) as (Hd1 & Hl1 & _).
  destruct (Zdigits2_spec m2 H2) as (Hd2 & _ & Hu2).
  set (d1 := Zdigits2 m1) in *. set (d2 := Zdigits2 m2) in *.
  assert (Hq : 2 ^ (d1 + s - d2 - 1) <= m1 * 2 ^ s / m2).
  { apply Z.div_le_lower_bound; [assumption|].
    assert (Hp : 2 ^ (d1 - 1) * 2 ^ s = 2 ^ (d1 + s - d2 - 1) * 2 ^ d2).
    { rewrite <- !Z.pow_add_r by lia. f_equal. lia. }
    assert (Hps : 0 < 2 ^ s) by (apply Z.pow_pos_nonneg; lia).
    assert (Hpk : 0 < 2 ^ (d1 + s - d2 - 1)) by (apply Z.pow_pos_nonneg; lia).
    nia. }
  pose proof (Zdigits2_ge _ (d1 + s - d2 - 1) ltac:(lia) Hq). lia.
Qed.

(** [x / y] for a finite non-negative [x] and a positive finite [y]: when
    the exact quotient is at most [c < 2 ^ k], the rounded one is a finite
    non-negative double at most one unit in the last place of [2 ^ k] above
    [c]. *)
Lemma div_bound (x : spec_float) (my : positive) (ey : Z) (c : Q) (k : Z) :
  Double.finite x -> sign_bit x = false -> bounded prec emax my ey = true ->
  (val x <= c * val (S754_finite false my ey))%Q -> (c < 2 ^ k)%Q -> k <= 1000 ->
  Double.finite (Double.div x (S754_finite false my ey)) /\
  sign_bit (Double.div x (S754_finite false my ey)) = false /\
  (val (Double.div x (S754_finite false my ey)) <= c + 2 ^ fexp prec emax k)%Q.
Proof.
  intros [Hv Hf] Hs Hy Hc Hk Hk'.
  pose proof (val_finite_pos my ey) as Hypos.
  pose proof (two_pow_pos (fexp prec emax k)) as Hulp.
  destruct x as [s|s| |sx mx ex]; try discriminate Hf; cbn [Double.sign_bit] in Hs; subst.
  - (* a zero dividend *)
    set (vy := val (S754_finite false my ey)) in *. clearbody vy.
    set (u := (2 ^ fexp prec emax k)%Q) in *. clearbody u.
    unfold Double.div. cbn [SFdiv xorb].
    split; [split; reflexivity|]. split; [reflexivity|].
    cbn [Double.val] in *.
    assert (H0 : (0 <= c)%Q).
    { destruct (Qlt_le_dec c 0) as [Hneg|]; [exfalso|assumption].
      assert (H1 : (c * vy < 0 * vy)%Q) by (apply Qmult_lt_compat_r; assumption).
      lra. }
    lra.
  - cbn [valid_binary] in Hv.
    destruct (bounded_range _ _ Hv) as (Hex & Hdx & Hmx).
    destruct (bounded_range _ _ Hy) as (Hey & Hdy & Hmy).
    apply bounded_elim in Hv as [Hcx _]. apply bounded_elim in Hy as [Hcy _].
    unfold Double.div. cbn [SFdiv xorb].
    destruct (div_core_spec (Zpos mx) ex (Zpos my) ey) as [l ->]; [lia|lia|].
    set (D := Zdigits2 (Zpos mx) + ex - (Zdigits2 (Zpos my) + ey)).
    set (e' := Z.min (fexp prec emax D) (ex - ey)).
    assert (Hs : 0 <= ex - ey - e') by (unfold e'; lia).
    set (s := ex - ey - e') in *.
    set (q := Zpos mx * 2 ^ s / Zpos my).
    assert (Hps : 0 < 2 ^ s) by (apply Z.pow_pos_nonneg; lia).
    assert (Hq0 : 0 <= q) by (apply Z.div_pos; lia).
    assert (Hqm : q * Zpos my <= Zpos mx * 2 ^ s).
    { unfold q. rewrite Z.mul_comm. apply Z.mul_div_le. lia. }
    (* the quotient, at its exponent, is at most [c] *)
    assert (Hqc : (inject_Z q * 2 ^ e' <= c)%Q).
    { apply (Qmult_le_r _ _ (val (S754_finite false my ey))); [assumption|].
      eapply Qle_trans; [|exact Hc].
      cbn [Double.val cond_Zopp].
      rewrite Zle_Qle, !inject_Z_mult, two_pow_Z in Hqm by assumption.
      rewrite (two_pow_split ex (e' + ey)).
      replace (ex - (e' + ey)) with s by (unfold s; lia).
      rewrite (two_pow_plus e' ey).
      pose proof (two_pow_pos e') as He'. pose proof (two_pow_pos ey) as Hey'.
      set (a := inject_Z q) in *. set (b := inject_Z (Zpos my)) in *.
      set (a1 := inject_Z (Zpos mx)) in *.
      set (ps := (2 ^ s)%Q) in *. set (pe := (2 ^ e')%Q) in *. set (py := (2 ^ ey)%Q) in *.
      clearbody a b a1 ps pe py.
      assert (G1 : (a * pe * (b * py) == (a * b) * (pe * py))%Q) by ring.
      rewrite G1. clear G1.
      assert (G2 : (a1 * (ps * (pe * py)) == (a1 * ps) * (pe * py))%Q) by ring.
      rewrite G2. clear G2.
      apply Qmult_le_compat_r; [assumption|].
      apply Qlt_le_weak, Qmult_lt_0_compat; assumption. }
    (* the exponent of the result *)
    assert (HE : e' <= fexp prec emax (Zdigits2 q + e') /\
                 fexp prec emax (Zdigits2 q + e') <= fexp prec emax k).
    { rewrite !fexp_eq. destruct (Z.eq_dec q 0) as [Hq|Hq].
      - rewrite Hq. change (Zdigits2 0) with 0.
        assert (e' <= -1074); [|lia].
        destruct (Z_le_gt_dec e' (-1074)) as [|Hgt]; [assumption|exfalso].
        assert (HD : e' <= D - 53) by (unfold e' in *; rewrite fexp_eq in *; lia).
        pose proof (div_quotient_lower (Zpos mx) (Zpos my) s ltac:(lia) ltac:(lia) Hs
                      ltac:(unfold s, D in *; lia)) as Hlow.
        fold q in Hlow. rewrite Hq in Hlow. change (Zdigits2 0) with 0 in Hlow.
        unfold s, D in *. lia.
      - assert (Hqpos : 0 < q) by lia.
        assert (Hdk : Zdigits2 q + e' <= k).
        { apply digits_scaled; [assumption|]. eapply Qle_lt_trans; eassumption. }
        split; [|lia].
        destruct (Z_le_gt_dec e' (-1074)) as [|Hgt]; [lia|].
        assert (HD : e' <= D - 53) by (unfold e' in *; rewrite fexp_eq in *; lia).
        pose proof (div_quotient_lower (Zpos mx) (Zpos my) s ltac:(lia) ltac:(lia) Hs
                      ltac:(unfold s, D in *; lia)) as Hlow.
        fold q in Hlow. unfold s, D in *. lia. }
    destruct HE as [HE1 HE2].
    destruct (binary_round_aux_spec false q e' l Hq0 HE1) as (T' & HT' & Henc).
    { pose proof (fexp_eq k). lia. }
    cbv zeta in HT'.
    set (E := fexp prec emax (Zdigits2 q + e')) in *.
    apply encodes_facts in Henc as (H1 & H2 & H3 & H4).
    split; [split; assumption|]. split; [assumption|].
    rewrite H4. cbn [cond_Zopp].
    assert (HT : (inject_Z T' * 2 ^ E <= inject_Z q * 2 ^ e' + 2 ^ E)%Q).
    { assert (Hn : 0 < 2 ^ (E - e')) by (apply Z.pow_pos_nonneg; lia).
      assert (Hfl : T' * 2 ^ (E - e') <= q + 2 ^ (E - e')).
      { pose proof (Z.mul_div_le q (2 ^ (E - e')) Hn). nia. }
      rewrite Zle_Qle, inject_Z_plus, inject_Z_mult, two_pow_Z in Hfl by lia.
      rewrite (two_pow_split E e').
      pose proof (two_pow_pos e') as He'.
      set (a := inject_Z T') in *. set (b := inject_Z q) in *.
      set (pn := (2 ^ (E - e'))%Q) in *. set (pe := (2 ^ e')%Q) in *.
      clearbody a b pn pe.
      assert (G3 : (a * (pn * pe) == (a * pn) * pe)%Q) by ring.
      rewrite G3. clear G3.
      assert (G4 : (b * pe + pn * pe == (b + pn) * pe)%Q) by ring.
      rewrite G4. clear G4.
      apply Qmult_le_compat_r; [assumption|lra]. }
    assert (HEk : (2 ^ E <= 2 ^ fexp prec emax k)%Q) by (apply two_pow_le; assumption).
    set (a := (inject_Z T' * 2 ^ E)%Q) in *. set (b := (inject_Z q * 2 ^ e')%Q) in *.
    set (u := (2 ^ E)%Q) in *. set (u' := (2 ^ fexp prec emax k)%Q) in *.
    clearbody a b u u'. lra.
Qed.

End Division.

(** ** [Math.floor], and the doubles below 360 *)

Section Floor.

Local Open Scope Z_scope.

Lemma ofZ_pos (p : positive) :
  Zpos p < 2 ^ 53 ->
  exists m, Double.ofZ (Zpos p)
            = S754_finite false m (fexp prec emax (Zdigits2 (Zpos p))) /\
            Zpos m = Zpos p * 2 ^ (- fexp prec emax (Zdigits2 (Zpos p))).
Proof.
  intros Hp. assert (Hd : Zdigits2 (Zpos p) <= 53) by (apply Zdigits2_le; lia).
  destruct (binary_round_exact false p 0) as (m & Hm & Hz & _).
  - rewrite fexp_eq. lia.
  - rewrite fexp_eq. lia.
  - rewrite Z.add_0_r in Hm, Hz. exists m. split; [exact Hm|].
    rewrite Hz. f_equal.
Qed.

(** [Math.floor] of a finite non-negative double below an integer [K] is
    the double of an integer below [K]. *)
Lemma floor_ofZ (x : spec_float) (K : Z) :
  Double.finite x -> sign_bit x = false -> (val x < inject_Z K)%Q -> K <= 2 ^ 52 ->
  exists n, 0 <= n < K /\ Double.floor x = Double.ofZ n.
Proof.
  intros [Hv Hf] Hs HK HK'.
  destruct x as [s|s| |s m e]; try discriminate Hf; cbn [Double.sign_bit] in Hs; subst.
  - exists 0. cbn [Double.val] in HK. change 0%Q with (inject_Z 0) in HK.
    rewrite <- Zlt_Qlt in HK. split; [lia|reflexivity].
  - cbn [valid_binary] in Hv. pose proof Hv as Hb.
    destruct (bounded_range _ _ Hv) as (He & Hd & Hm).
    apply bounded_elim in Hv as [Hc _]. rewrite fexp_eq in Hc.
    cbn [Double.val cond_Zopp] in HK. cbn [Double.floor].
    destruct (Z.leb_spec 0 e) as [He0|He0].
    + (* an integer already: only exponent 0 is below 2^52 *)
      assert (e = 0).
      { destruct (Z.eq_dec e 0) as [|Hne]; [assumption|exfalso].
        assert (Hd53 : Zdigits2 (Zpos m) = 53) by lia.
        destruct (Zdigits2_spec (Zpos m) ltac:(lia)) as (_ & Hl & _).
        rewrite Hd53 in Hl. change (53 - 1) with 52 in Hl.
        assert (H1 : (inject_Z K <= inject_Z (Zpos m))%Q)
          by (rewrite <- Zle_Qle; lia).
        assert (H2 : (2 ^ 0 <= 2 ^ e)%Q) by (apply two_pow_le; lia).
        change (2 ^ 0)%Q with 1%Q in H2.
        assert (H3 : (0 < inject_Z (Zpos m))%Q) by reflexivity.
        set (a := inject_Z (Zpos m)) in *. set (b := (2 ^ e)%Q) in *.
        set (k := inject_Z K) in *. clearbody a b k.
        assert (H4 : (a * 1 <= a * b)%Q).
        { rewrite !(Qmult_comm a). apply Qmult_le_compat_r; lra. }
        lra. }
      subst e. exists (Zpos m). split.
      * change (2 ^ 0)%Q with 1%Q in HK. rewrite Qmult_1_r, <- Zlt_Qlt in HK. lia.
      * destruct (ofZ_pos m Hm) as (m' & -> & Hm').
        rewrite fexp_eq in *.
        assert (HE : Z.max (Zdigits2 (Zpos m) - 53) (-1074) = 0) by lia.
        rewrite HE in *. change (2 ^ (- 0)) with 1 in Hm'.
        f_equal. lia.
    + exists (Zpos m / 2 ^ (- e)).
      assert (Hp : 0 < 2 ^ (- e)) by (apply Z.pow_pos_nonneg; lia).
      split; [split|].
      * apply Z.div_pos; lia.
      * pose proof (Z.mul_div_le (Zpos m) (2 ^ (- e)) Hp) as Hle.
        rewrite Zlt_Qlt. eapply Qle_lt_trans; [|exact HK].
        rewrite Zle_Qle, inject_Z_mult, two_pow_Z in Hle by lia.
        pose proof (two_pow_pos e) as Hpe.
        assert (Hone : (2 ^ (- e) * 2 ^ e == 1)%Q).
        { rewrite <- two_pow_plus. replace (- e + e) with 0 by lia. reflexivity. }
        set (a := inject_Z (Zpos m / 2 ^ (- e))) in *.
        set (b := inject_Z (Zpos m)) in *.
        set (pn := (2 ^ (- e))%Q) in *. set (pe := (2 ^ e)%Q) in *.
        clearbody a b pn pe.
        assert (H1 : ((pn * a) * pe <= b * pe)%Q)
          by (apply Qmult_le_compat_r; lra).
        assert (H2 : ((pn * a) * pe == a * (pn * pe))%Q) by ring.
        rewrite H2, Hone in H1. lra.
      * cbn [cond_Zopp]. rewrite Z.shiftr_div_pow2 by lia. reflexivity.
Qed.

(** A double below 360 is at least one unit in the last place below it. *)
Lemma below_360 (x : spec_float) :
  Double.finite x -> (val x < 360)%Q -> (val x <= 360 - 2 ^ (-44))%Q.
Proof.
  intros [Hv Hf] Hlt.
  destruct x as [s|s| |s m e]; try discriminate Hf;
    try (cbn [Double.val]; vm_compute; discriminate).
  cbn [valid_binary] in Hv. destruct (bounded_range _ _ Hv) as (He & Hd & Hm).
  destruct s.
  - (* negative *)
    cbn [Double.val cond_Zopp].
    assert (H0 : (0 < inject_Z (Zpos m) * 2 ^ e)%Q)
      by (apply Qmult_lt_0_compat; [reflexivity|apply two_pow_pos]).
    change (inject_Z (- Zpos m)) with (- inject_Z (Zpos m))%Q.
    assert (H1 : (0 <= 360 - 2 ^ (-44))%Q) by (vm_compute; discriminate).
    set (a := inject_Z (Zpos m)) in *. set (b := (2 ^ e)%Q) in *.
    set (c := (360 - 2 ^ (-44))%Q) in *. clearbody a b c. lra.
  - cbn [Double.val cond_Zopp] in *.
    destruct (Z_le_gt_dec (-44) e) as [Hge|Hlo].
    + (* a multiple of 2^-44 *)
      set (M := Zpos m * 2 ^ (e + 44)).
      assert (HM : (inject_Z (Zpos m) * 2 ^ e == inject_Z M * 2 ^ (-44))%Q).
      { unfold M. rewrite inject_Z_mult, two_pow_Z by lia.
        rewrite (two_pow_split e (-44)). replace (e - -44) with (e + 44) by lia. ring. }
      rewrite HM in *. clearbody M.
      assert (HM' : M < 360 * 2 ^ 44).
      { rewrite Zlt_Qlt. apply (Qmult_lt_r _ _ (2 ^ (-44))%Q); [apply two_pow_pos|].
        eapply Qlt_le_trans; [exact Hlt|]. vm_compute. discriminate. }
      assert (HM'' : M <= 360 * 2 ^ 44 - 1) by lia.
      rewrite Zle_Qle in HM''.
      apply (Qmult_le_compat_r _ _ (2 ^ (-44))%Q) in HM''; [|vm_compute; discriminate].
      eapply Qle_trans; [exact HM''|]. vm_compute. discriminate.
    + (* below 256 *)
      assert (H1 : (inject_Z (Zpos m) <= inject_Z (2 ^ 53))%Q)
        by (rewrite <- Zle_Qle; lia).
      assert (H2 : (2 ^ e <= 2 ^ (-45))%Q) by (apply two_pow_le; lia).
      pose proof (two_pow_pos e) as H3.
      assert (H4 : (inject_Z (2 ^ 53) * 2 ^ (-45) <= 360 - 2 ^ (-44))%Q)
        by (vm_compute; discriminate).
      assert (H5 : (0 <= inject_Z (2 ^ 53))%Q) by (vm_compute; discriminate).
      set (a := inject_Z (Zpos m)) in *. set (b := (2 ^ e)%Q) in *.
      set (a' := inject_Z (2 ^ 53)) in *. set (b' := (2 ^ (-45))%Q) in *.
      set (c := (360 - 2 ^ (-44))%Q) in *. clearbody a b a' b' c.
      assert (H6 : (a * b <= a' * b)%Q) by (apply Qmult_le_compat_r; lra).
      assert (H7 : (a' * b <= a' * b')%Q).
      { rewrite !(Qmult_comm a'). apply Qmult_le_compat_r; lra. }
      lra.
Qed.

End Floor.

(** ** The constants of the source as doubles *)

Section Constants.

Local Open Scope Q_scope.

Local Ltac shape := eexists; eexists; split; vm_compute; reflexivity.

Lemma positive_360 : Double.positive (Double.ofZ 360).
Proof. shape. Qed.

Lemma positive_HD_OFFSET : Double.positive Double.HD_OFFSET.
Proof. shape. Qed.

Lemma positive_GATE : Double.positive Double.DEGREES_PER_GATE.
Proof. shape. Qed.

Lemma positive_LINE : Double.positive Double.DEGREES_PER_LINE.
Proof. shape. Qed.

Lemma positive_COLOR : Double.positive Double.DEGREES_PER_COLOR.
Proof. shape. Qed.

Lemma positive_TONE : Double.positive Double.DEGREES_PER_TONE.
Proof. shape. Qed.

Lemma positive_BASE : Double.positive Double.DEGREES_PER_BASE.
Proof. shape. Qed.

Lemma val_360 : val (Double.ofZ 360) == 360.
Proof. vm_compute. reflexivity. Qed.

Lemma val_GATE : val Double.DEGREES_PER_GATE == 5.625.
Proof. vm_compute. reflexivity. Qed.

Lemma val_HD_OFFSET : 58 < val Double.HD_OFFSET < 59.
Proof. split; vm_compute; reflexivity. Qed.

(** Each step is at most six times the next one: a position below a step
    holds fewer than seven of the next. *)
Lemma steps_nest :
  val Double.DEGREES_PER_GATE <= 6 * val Double.DEGREES_PER_LINE /\
  val Double.DEGREES_PER_LINE <= 6 * val Double.DEGREES_PER_COLOR /\
  val Double.DEGREES_PER_COLOR <= 6 * val Double.DEGREES_PER_TONE /\
  val Double.DEGREES_PER_TONE <= 6 * val Double.DEGREES_PER_BASE.
Proof. repeat split; vm_compute; discriminate. Qed.

End Constants.

(** ** The operations on positive divisors *)

Section Wrappers.

Local Open Scope Q_scope.

Lemma positive_val (y : spec_float) : Double.positive y -> 0 < val y.
Proof. intros (m & e & -> & _). apply val_finite_pos. Qed.

Lemma rem_range (x y : spec_float) :
  Double.finite x -> Double.positive y ->
  Double.finite (Double.rem x y) /\
  sign_bit (Double.rem x y) = sign_bit x /\
  - val y < val (Double.rem x y) < val y.
Proof. intros Hx (m & e & -> & Hb). apply rem_finite; assumption. Qed.

(** The remainder of a non-negative double. *)
Lemma rem_nonneg_range (x y : spec_float) :
  Double.finite x -> sign_bit x = false -> Double.positive y ->
  Double.finite (Double.rem x y) /\
  sign_bit (Double.rem x y) = false /\
  0 <= val (Double.rem x y) < val y.
Proof.
  intros Hx Hs Hy. destruct (rem_range x y Hx Hy) as (Hf & Hsr & _ & Hlt).
  rewrite Hs in Hsr. split; [assumption|]. split; [assumption|].
  split; [apply val_sign_false; assumption|assumption].
Qed.

Lemma add_range (x y : spec_float) :
  Double.finite x -> Double.positive y ->
  0 < val x + val y -> val x + val y < 2 ^ 1000 ->
  Double.finite (Double.add x y) /\ sign_bit (Double.add x y) = false.
Proof. intros Hx (m & e & -> & Hb). apply add_finite; assumption. Qed.

Lemma div_range (x y : spec_float) (c : Q) (k : Z) :
  Double.finite x -> sign_bit x = false -> Double.positive y ->
  val x <= c * val y -> c < 2 ^ k -> (k <= 1000)%Z ->
  Double.finite (Double.div x y) /\
  sign_bit (Double.div x y) = false /\
  val (Double.div x y) <= c + 2 ^ fexp prec emax k.
Proof. intros Hx Hs (m & e & -> & Hb). apply div_bound; assumption. Qed.

End Wrappers.

(** * GateMapper on doubles *)

Section GateMapperDouble.

Local Open Scope Q_scope.

Lemma far_from_overflow : 720 < 2 ^ 1000.
Proof. vm_compute. reflexivity. Qed.

(** Line 47: [((longitude % 360) + 360) % 360] is a finite double in
    [[0, 360)], whatever rounding the addition does. *)
Lemma normalized_range (x : spec_float) :
  Double.finite x ->
  let deg := Double.rem (Double.add (Double.rem x (Double.ofZ 360)) (Double.ofZ 360))
               (Double.ofZ 360) in
  Double.finite deg /\ sign_bit deg = false /\ 0 <= val deg < 360.
Proof.
  intros Hx deg. subst deg.
  destruct (rem_range x _ Hx positive_360) as (Hf1 & _ & Hlo & Hhi).
  pose proof val_360 as H360. pose proof far_from_overflow as Hfar.
  set (r1 := Double.rem x (Double.ofZ 360)) in *.
  destruct (add_range r1 _ Hf1 positive_360) as (Hf2 & Hs2).
  { set (a := val r1) in *. set (b := val (Double.ofZ 360)) in *. clearbody a b. lra. }
  { set (a := val r1) in *. set (b := val (Double.ofZ 360)) in *.
    set (c := 2 ^ 1000) in *. clearbody a b c. lra. }
  destruct (rem_nonneg_range _ _ Hf2 Hs2 positive_360) as (Hf3 & Hs3 & H0 & H1).
  split; [assumption|]. split; [assumption|].
  rewrite H360 in H1. split; assumption.
Qed.

(** Line 50: the wheel position [(deg + 58.93) % 360]. *)
Lemma wheel_range (deg : spec_float) :
  Double.finite deg -> sign_bit deg = false -> 0 <= val deg < 360 ->
  let wheelPos := Double.rem (Double.add deg Double.HD_OFFSET) (Double.ofZ 360) in
  Double.finite wheelPos /\ sign_bit wheelPos = false /\ 0 <= val wheelPos < 360.
Proof.
  intros Hf Hs [H0 H1] wheelPos. subst wheelPos.
  pose proof val_360 as H360. pose proof far_from_overflow as Hfar.
  pose proof val_HD_OFFSET as [Hh0 Hh1].
  destruct (add_range deg _ Hf positive_HD_OFFSET) as (Hf2 & Hs2).
  { set (a := val deg) in *. set (b := val Double.HD_OFFSET) in *. clearbody a b. lra. }
  { set (a := val deg) in *. set (b := val Double.HD_OFFSET) in *.
    set (c := 2 ^ 1000) in *. clearbody a b c. lra. }
  destruct (rem_nonneg_range _ _ Hf2 Hs2 positive_360) as (Hf3 & Hs3 & H2 & H3).
  split; [assumption|]. split; [assumption|].
  rewrite H360 in H3. split; assumption.
Qed.

(** The largest quotient line 54 can see stays below 64 after rounding. *)
Lemma largest_quotient_below_64 :
  Double.largest_quotient * 5.625 == 360 - 2 ^ (-44) /\
  Double.largest_quotient < 2 ^ 6 /\
  Double.largest_quotient + 2 ^ fexp prec emax 6 < inject_Z 64.
Proof. repeat split; vm_compute; reflexivity. Qed.

Lemma gate_table (n : Z) :
  (0 <= n < 64)%Z ->
  exists g, GATE_ORDER !! Z.to_nat n = Some g /\
            Double.index GATE_ORDER (Double.ofZ n) = Some g /\ (1 <= g <= 64)%Z.
Proof.
  intros Hn. rewrite <- (Z2Nat.id n) by lia.
  assert (Hk : (Z.to_nat n < 64)%nat) by lia.
  rewrite Nat2Z.id. generalize dependent (Z.to_nat n). clear n Hn. intros k Hk.
  do 64 (destruct k as [|k];
         [eexists; split; [reflexivity|]; split; [vm_compute; reflexivity|lia]|]).
  lia.
Qed.

(** Line 54: the gate index is a whole number from 0 to 63. *)
Lemma gateIndex_range (wheelPos : spec_float) :
  Double.finite wheelPos -> sign_bit wheelPos = false -> val wheelPos < 360 ->
  exists n, (0 <= n < 64)%Z /\ Double.gateIndexOf wheelPos = Double.ofZ n.
Proof.
  intros Hf Hs Hlt. unfold Double.gateIndexOf.
  destruct largest_quotient_below_64 as (Hq1 & Hq2 & Hq3).
  pose proof (below_360 _ Hf Hlt) as Hle.
  destruct (div_range wheelPos _ Double.largest_quotient 6 Hf Hs positive_GATE)
    as (Hfq & Hsq & Hvq).
  - rewrite val_GATE, Hq1. exact Hle.
  - exact Hq2.
  - lia.
  - apply floor_ofZ; [assumption|assumption| |].
    + eapply Qle_lt_trans; [exact Hvq|exact Hq3].
    + vm_compute. discriminate.
Qed.

Lemma digit_table (n top : Z) :
  (0 <= n < 7)%Z -> (top = 5 \/ top = 6)%Z ->
  Double.min (Double.add (Double.ofZ n) (Double.ofZ 1)) (Double.ofZ top)
  = Double.ofZ (Z.min (n + 1) top).
Proof.
  intros Hn Htop.
  assert (Hc : (n = 0 \/ n = 1 \/ n = 2 \/ n = 3 \/ n = 4 \/ n = 5 \/ n = 6)%Z) by lia.
  destruct Htop; subst; intuition subst; vm_compute; reflexivity.
Qed.

(** Lines 58-71: one level of the subdivision.  A position below its
    parent's step gives a digit from 1 to [top] after the clamp. *)
Lemma digit_range (pos step : spec_float) (top : Z) :
  Double.finite pos -> sign_bit pos = false -> Double.positive step ->
  val pos <= 6 * val step -> (top = 5 \/ top = 6)%Z ->
  exists k, (1 <= k <= top)%Z /\
    Double.min (Double.add (Double.floor (Double.div pos step)) (Double.ofZ 1))
      (Double.ofZ top) = Double.ofZ k.
Proof.
  intros Hf Hs Hstep Hle Htop.
  destruct (div_range pos step 6 3 Hf Hs Hstep Hle) as (Hfq & Hsq & Hvq).
  - vm_compute. reflexivity.
  - lia.
  - destruct (floor_ofZ _ 7 Hfq Hsq) as (n & Hn & ->).
    + eapply Qle_lt_trans; [exact Hvq|]. vm_compute. reflexivity.
    + vm_compute. discriminate.
    + exists (Z.min (n + 1) top). split; [lia|]. apply digit_table; assumption.
Qed.

End GateMapperDouble.

(** ** The ranges of the gate code *)

Section GateMapperClaims.

Local Open Scope Q_scope.

(** The chain of positions of [longitudeToGate]: each is a finite
    non-negative double below the step above it. *)
Lemma positions_range (x : spec_float) :
  Double.finite x ->
  let deg := Double.longitude (Double.longitudeToGate x) in
  let wheelPos := Double.wheelPosition (Double.longitudeToGate x) in
  let posInGate := Double.rem wheelPos Double.DEGREES_PER_GATE in
  let posInLine := Double.rem posInGate Double.DEGREES_PER_LINE in
  let posInColor := Double.rem posInLine Double.DEGREES_PER_COLOR in
  let posInTone := Double.rem posInColor Double.DEGREES_PER_TONE in
  (Double.finite deg /\ sign_bit deg = false /\ 0 <= val deg < 360) /\
  (Double.finite wheelPos /\ sign_bit wheelPos = false /\ 0 <= val wheelPos < 360) /\
  (Double.finite posInGate /\ sign_bit posInGate = false /\
   val posInGate < val Double.DEGREES_PER_GATE) /\
  (Double.finite posInLine /\ sign_bit posInLine = false /\
   val posInLine < val Double.DEGREES_PER_LINE) /\
  (Double.finite posInColor /\ sign_bit posInColor = false /\
   val posInColor < val Double.DEGREES_PER_COLOR) /\
  (Double.finite posInTone /\ sign_bit posInTone = false /\
   val posInTone < val Double.DEGREES_PER_TONE).
Proof.
  intros Hx. cbv zeta. unfold Double.longitudeToGate.
  cbn [Double.longitude Double.wheelPosition].
  set (deg := Double.rem (Double.add (Double.rem x (Double.ofZ 360)) (Double.ofZ 360))
                (Double.ofZ 360)).
  set (wheelPos := Double.rem (Double.add deg Double.HD_OFFSET) (Double.ofZ 360)).
  set (posInGate := Double.rem wheelPos Double.DEGREES_PER_GATE).
  set (posInLine := Double.rem posInGate Double.DEGREES_PER_LINE).
  set (posInColor := Double.rem posInLine Double.DEGREES_PER_COLOR).
  set (posInTone := Double.rem posInColor Double.DEGREES_PER_TONE).
  pose proof (normalized_range x Hx) as Hdeg. cbv zeta in Hdeg. fold deg in Hdeg.
  destruct Hdeg as (Hf0 & Hs0 & Hr0).
  pose proof (wheel_range deg Hf0 Hs0 Hr0) as Hw. cbv zeta in Hw. fold wheelPos in Hw.
  destruct Hw as (Hf1 & Hs1 & Hr1).
  destruct (rem_nonneg_range wheelPos _ Hf1 Hs1 positive_GATE) as (Hf2 & Hs2 & _ & Hr2).
  fold posInGate in Hf2, Hs2, Hr2.
  destruct (rem_nonneg_range posInGate _ Hf2 Hs2 positive_LINE) as (Hf3 & Hs3 & _ & Hr3).
  fold posInLine in Hf3, Hs3, Hr3.
  destruct (rem_nonneg_range posInLine _ Hf3 Hs3 positive_COLOR) as (Hf4 & Hs4 & _ & Hr4).
  fold posInColor in Hf4, Hs4, Hr4.
  destruct (rem_nonneg_range posInColor _ Hf4 Hs4 positive_TONE) as (Hf5 & Hs5 & _ & Hr5).
  fold posInTone in Hf5, Hs5, Hr5.
  split; [split; [exact Hf0|split; [exact Hs0|exact Hr0]]|].
  split; [split; [exact Hf1|split; [exact Hs1|exact Hr1]]|].
  split; [split; [exact Hf2|split; [exact Hs2|exact Hr2]]|].
  split; [split; [exact Hf3|split; [exact Hs3|exact Hr3]]|].
  split; [split; [exact Hf4|split; [exact Hs4|exact Hr4]]|].
  split; [exact Hf5|split; [exact Hs5|exact Hr5]].
Qed.

(** C1. For every finite double [x], the gate index that
    [longitudeToGate x] computes on line 54, [Math.floor(wheelPos /
    5.625)] with both operations in binary64, is a whole number [n] from 0
    to 63, and the [gate] field is [GATE_ORDER[n]], a defined entry of the
    table.  The rounded quotient never reaches 64, so the source's missing
    clamp is never needed. *)
Theorem longitudeToGate_index_binary64 (x : spec_float) :
  Double.finite x ->
  exists n g,
    Double.gateIndexOf (Double.wheelPosition (Double.longitudeToGate x)) = Double.ofZ n /\
    (0 <= n <= 63)%Z /\
    GATE_ORDER !! Z.to_nat n = Some g /\
    Double.gate (Double.longitudeToGate x) = Some g.
Proof.
  intros Hx.
  destruct (positions_range x Hx) as (_ & (Hf & Hs & _ & Hlt) & _).
  destruct (gateIndex_range _ Hf Hs Hlt) as (n & Hn & Hidx).
  destruct (gate_table n Hn) as (g & Hg & Hi & _).
  exists n, g. split; [exact Hidx|]. split; [lia|]. split; [exact Hg|].
  unfold Double.longitudeToGate at 1. cbn [Double.gate].
  unfold Double.gateIndexOf in Hidx.
  unfold Double.longitudeToGate in Hidx. cbn [Double.wheelPosition] in Hidx.
  rewrite Hidx. exact Hi.
Qed.

(** C7. For every finite double [x], the code [longitudeToGate x] returns
    has [gate] in 1..64, [line], [color] and [tone] whole numbers in 1..6,
    [base] a whole number in 1..5, and [longitude] and [wheelPosition]
    finite doubles in [[0, 360)], all arithmetic being binary64. *)
Theorem longitudeToGate_ranges_binary64 (x : spec_float) :
  Double.finite x ->
  (exists g, Double.gate (Double.longitudeToGate x) = Some g /\ (1 <= g <= 64)%Z) /\
  (exists k, Double.line (Double.longitudeToGate x) = Double.ofZ k /\ (1 <= k <= 6)%Z) /\
  (exists k, Double.color (Double.longitudeToGate x) = Double.ofZ k /\ (1 <= k <= 6)%Z) /\
  (exists k, Double.tone (Double.longitudeToGate x) = Double.ofZ k /\ (1 <= k <= 6)%Z) /\
  (exists k, Double.base (Double.longitudeToGate x) = Double.ofZ k /\ (1 <= k <= 5)%Z) /\
  (Double.finite (Double.longitude (Double.longitudeToGate x)) /\
   0 <= val (Double.longitude (Double.longitudeToGate x)) < 360) /\
  (Double.finite (Double.wheelPosition (Double.longitudeToGate x)) /\
   0 <= val (Double.wheelPosition (Double.longitudeToGate x)) < 360).
Proof.
  intros Hx.
  destruct (positions_range x Hx)
    as ((Hf0 & Hs0 & Hr0) & (Hf1 & Hs1 & Hr1) & (Hf2 & Hs2 & Hr2) & (Hf3 & Hs3 & Hr3) &
        (Hf4 & Hs4 & Hr4) & (Hf5 & Hs5 & Hr5)).
  destruct steps_nest as (Hn1 & Hn2 & Hn3 & Hn4).
  split; [|split; [|split; [|split; [|split; [|split]]]]].
  - destruct (gateIndex_range _ Hf1 Hs1 (proj2 Hr1)) as (n & Hn & Hidx).
    destruct (gate_table n Hn) as (g & _ & Hi & Hg).
    exists g. split; [|exact Hg].
    unfold Double.longitudeToGate at 1. cbn [Double.gate].
    unfold Double.gateIndexOf in Hidx.
    unfold Double.longitudeToGate in Hidx. cbn [Double.wheelPosition] in Hidx.
    rewrite Hidx. exact Hi.
  - destruct (digit_range _ Double.DEGREES_PER_LINE 6 Hf2 Hs2 positive_LINE)
      as (k & Hk & Heq); [|right; reflexivity|].
    + eapply Qle_trans; [apply Qlt_le_weak; exact Hr2|exact Hn1].
    + exists k. split; [|exact Hk]. rewrite <- Heq.
      unfold Double.longitudeToGate. reflexivity.
  - destruct (digit_range _ Double.DEGREES_PER_COLOR 6 Hf3 Hs3 positive_COLOR)
      as (k & Hk & Heq); [|right; reflexivity|].
    + eapply Qle_trans; [apply Qlt_le_weak; exact Hr3|exact Hn2].
    + exists k. split; [|exact Hk]. rewrite <- Heq.
      unfold Double.longitudeToGate. reflexivity.
  - destruct (digit_range _ Double.DEGREES_PER_TONE 6 Hf4 Hs4 positive_TONE)
      as (k & Hk & Heq); [|right; reflexivity|].
    + eapply Qle_trans; [apply Qlt_le_weak; exact Hr4|exact Hn3].
    + exists k. split; [|exact Hk]. rewrite <- Heq.
      unfold Double.longitudeToGate. reflexivity.
  - destruct (digit_range _ Double.DEGREES_PER_BASE 5 Hf5 Hs5 positive_BASE)
      as (k & Hk & Heq); [|left; reflexivity|].
    + eapply Qle_trans; [apply Qlt_le_weak; exact Hr5|exact Hn4].
    + exists k. split; [|exact Hk]. rewrite <- Heq.
      unfold Double.longitudeToGate. reflexivity.
  - split; assumption.
  - split; assumption.
Qed.

End GateMapperClaims.

(** * DesignEpochSolver on doubles *)

(** ** Whole numbers of degrees *)

Section WholeDegrees.

Local Open Scope Z_scope.






End WholeDegrees.

(** ** Line 92 on whole numbers of degrees *)

Section SolverDouble.

Local Open Scope Z_scope.





End SolverDouble.

(** ** Whole turns *)

Section SolverClaims.

Local Open Scope Z_scope.




End SolverClaims.

(** * The gate code of given doubles *)

Section GateMapperWitnesses.

(** The model on the inputs where rounding decides the digits. *)
Lemma longitudeToGate_rounded_digits :
  Double.formatted (Double.longitudeToGate (Double.lit 0.445)) = "25.4.2.6.5" /\
  Double.formatted
    (Double.longitudeToGate (Double.lit (-5330500000000003 # 100000000000000)))
  = "19.1.1.1.1" /\
  Double.formatted (Double.longitudeToGate (Double.ofZ 0)) = "25.3.6.1.5".
Proof. repeat split; vm_compute; reflexivity. Qed.

Lemma longitudeToGate_index_binary64_witness :
  Double.finite (Double.lit (-5330500000000003 # 100000000000000)) /\
  exists n g,
    Double.gateIndexOf
      (Double.wheelPosition
         (Double.longitudeToGate (Double.lit (-5330500000000003 # 100000000000000))))
    = Double.ofZ n /\
    (0 <= n <= 63)%Z /\
    GATE_ORDER !! Z.to_nat n = Some g /\
    Double.gate (Double.longitudeToGate (Double.lit (-5330500000000003 # 100000000000000)))
    = Some g.
Proof.
  assert (H : Double.finite (Double.lit (-5330500000000003 # 100000000000000)))
    by (split; vm_compute; reflexivity).
  split; [exact H|].
  exact (longitudeToGate_index_binary64 _ H).
Defined.

Lemma longitudeToGate_ranges_binary64_witness :
  Double.finite (Double.lit 0.445) /\
  ((exists g, Double.gate (Double.longitudeToGate (Double.lit 0.445)) = Some g /\ (1 <= g <= 64)%Z) /\
   (exists k, Double.line (Double.longitudeToGate (Double.lit 0.445)) = Double.ofZ k /\ (1 <= k <= 6)%Z) /\
   (exists k, Double.color (Double.longitudeToGate (Double.lit 0.445)) = Double.ofZ k /\ (1 <= k <= 6)%Z) /\
   (exists k, Double.tone (Double.longitudeToGate (Double.lit 0.445)) = Double.ofZ k /\ (1 <= k <= 6)%Z) /\
   (exists k, Double.base (Double.longitudeToGate (Double.lit 0.445)) = Double.ofZ k /\ (1 <= k <= 5)%Z) /\
   (Double.finite (Double.longitude (Double.longitudeToGate (Double.lit 0.445))) /\
    (0 <= val (Double.longitude (Double.longitudeToGate (Double.lit 0.445))) < 360)%Q) /\
   (Double.finite (Double.wheelPosition (Double.longitudeToGate (Double.lit 0.445))) /\
    (0 <= val (Double.wheelPosition (Double.longitudeToGate (Double.lit 0.445))) < 360)%Q)).
Proof.
  assert (H : Double.finite (Double.lit 0.445)) by (split; vm_compute; reflexivity).
  split; [exact H|].
  exact (longitudeToGate_ranges_binary64 _ H).
Defined.

End GateMapperWitnesses.

(** * Further properties of the code on doubles *)

Section GateMapperFurther.

Local Open Scope Z_scope.

Lemma show_digit (k : Z) : 1 <= k <= 6 -> Double.show (Double.ofZ k) = pretty k.
Proof.
  intros Hk. assert (Hc : k = 1 \/ k = 2 \/ k = 3 \/ k = 4 \/ k = 5 \/ k = 6) by lia.
  intuition subst; vm_compute; reflexivity.
Qed.

(** X1. The [formatted] field of the code of a finite double is the gate and
    the four digits in decimal, joined by dots: never [undefined] and never
    [NaN]. *)
Theorem longitudeToGate_formatted_binary64 (x : spec_float) :
  Double.finite x ->
  exists g l c t b,
    (1 <= g <= 64 /\ 1 <= l <= 6 /\ 1 <= c <= 6 /\ 1 <= t <= 6 /\ 1 <= b <= 5) /\
    Double.gate (Double.longitudeToGate x) = Some g /\
    Double.line (Double.longitudeToGate x) = Double.ofZ l /\
    Double.color (Double.longitudeToGate x) = Double.ofZ c /\
    Double.tone (Double.longitudeToGate x) = Double.ofZ t /\
    Double.base (Double.longitudeToGate x) = Double.ofZ b /\
    Double.formatted (Double.longitudeToGate x)
    = pretty g +:+ "." +:+ pretty l +:+ "." +:+ pretty c +:+ "." +:+ pretty t +:+
      "." +:+ pretty b.
Proof.
  intros Hx.
  destruct (positions_range x Hx)
    as (_ & (Hf1 & Hs1 & Hr1) & (Hf2 & Hs2 & Hr2) & (Hf3 & Hs3 & Hr3) &
        (Hf4 & Hs4 & Hr4) & (Hf5 & Hs5 & Hr5)).
  destruct steps_nest as (Hn1 & Hn2 & Hn3 & Hn4).
  destruct (gateIndex_range _ Hf1 Hs1 (proj2 Hr1)) as (n & Hn & Hidx).
  destruct (gate_table n Hn) as (g & _ & Hi & Hg).
  destruct (digit_range _ Double.DEGREES_PER_LINE 6 Hf2 Hs2 positive_LINE)
    as (l & Hl & Heql); [|right; reflexivity|].
  { eapply Qle_trans; [apply Qlt_le_weak; exact Hr2|exact Hn1]. }
  destruct (digit_range _ Double.DEGREES_PER_COLOR 6 Hf3 Hs3 positive_COLOR)
    as (c & Hc & Heqc); [|right; reflexivity|].
  { eapply Qle_trans; [apply Qlt_le_weak; exact Hr3|exact Hn2]. }
  destruct (digit_range _ Double.DEGREES_PER_TONE 6 Hf4 Hs4 positive_TONE)
    as (t & Ht & Heqt); [|right; reflexivity|].
  { eapply Qle_trans; [apply Qlt_le_weak; exact Hr4|exact Hn3]. }
  destruct (digit_range _ Double.DEGREES_PER_BASE 5 Hf5 Hs5 positive_BASE)
    as (b & Hb & Heqb); [|left; reflexivity|].
  { eapply Qle_trans; [apply Qlt_le_weak; exact Hr5|exact Hn4]. }
  unfold Double.gateIndexOf in Hidx.
  unfold Double.longitudeToGate in Hidx, Heql, Heqc, Heqt, Heqb.
  cbn [Double.wheelPosition Double.longitude] in Hidx, Heql, Heqc, Heqt, Heqb.
  exists g, l, c, t, b. split; [lia|].
  unfold Double.longitudeToGate.
  cbn [Double.gate Double.line Double.color Double.tone Double.base Double.formatted].
  rewrite Hidx, Hi, Heql, Heqc, Heqt, Heqb.
  rewrite !show_digit by lia.
  repeat (split; [reflexivity|]). reflexivity.
Qed.

Lemma longitudeToGate_formatted_binary64_witness :
  Double.finite (Double.lit 0.445) /\
  exists g l c t b,
    (1 <= g <= 64 /\ 1 <= l <= 6 /\ 1 <= c <= 6 /\ 1 <= t <= 6 /\ 1 <= b <= 5) /\
    Double.gate (Double.longitudeToGate (Double.lit 0.445)) = Some g /\
    Double.line (Double.longitudeToGate (Double.lit 0.445)) = Double.ofZ l /\
    Double.color (Double.longitudeToGate (Double.lit 0.445)) = Double.ofZ c /\
    Double.tone (Double.longitudeToGate (Double.lit 0.445)) = Double.ofZ t /\
    Double.base (Double.longitudeToGate (Double.lit 0.445)) = Double.ofZ b /\
    Double.formatted (Double.longitudeToGate (Double.lit 0.445))
    = pretty g +:+ "." +:+ pretty l +:+ "." +:+ pretty c +:+ "." +:+ pretty t +:+
      "." +:+ pretty b.
Proof.
  assert (H : Double.finite (Double.lit 0.445)) by (split; vm_compute; reflexivity).
  split; [exact H|].
  exact (longitudeToGate_formatted_binary64 _ H).
Defined.

(** X2. Outside the finite doubles nothing is defined: for NaN and the two
    infinities the gate is [undefined] and every number of the code is
    NaN. *)
Theorem longitudeToGate_not_finite (x : spec_float) :
  is_finite x = false ->
  Double.gate (Double.longitudeToGate x) = None /\
  Double.line (Double.longitudeToGate x) = S754_nan /\
  Double.color (Double.longitudeToGate x) = S754_nan /\
  Double.tone (Double.longitudeToGate x) = S754_nan /\
  Double.base (Double.longitudeToGate x) = S754_nan /\
  Double.longitude (Double.longitudeToGate x) = S754_nan /\
  Double.wheelPosition (Double.longitudeToGate x) = S754_nan /\
  Double.formatted (Double.longitudeToGate x) = "undefined.NaN.NaN.NaN.NaN".
Proof.
  destruct x as [s|[|]| |s m e]; try discriminate; intros _;
    repeat split; vm_compute; reflexivity.
Qed.

Lemma longitudeToGate_not_finite_witness :
  is_finite S754_nan = false /\
  Double.formatted (Double.longitudeToGate S754_nan) = "undefined.NaN.NaN.NaN.NaN".
Proof.
  assert (H : is_finite S754_nan = false) by reflexivity.
  split; [exact H|].
  exact (proj2 (proj2 (proj2 (proj2 (proj2 (proj2 (proj2
           (longitudeToGate_not_finite S754_nan H)))))))).
Defined.

End GateMapperFurther.

Section SolverFurther.

Variable sweph : Double.Sweph.

Local Open Scope Q_scope.

Lemma sunSearch_sound (budget : nat) (targetLon direction jd found : spec_float) :
  Double.sunSearch sweph budget targetLon direction jd = Some found ->
  Double.ltb (Double.abs (Double.sunDistance sweph targetLon found)) (Double.lit 0.0001)
  = true.
Proof.
  revert jd. induction budget as [|budget IH]; intros jd H; [discriminate|].
  cbn [Double.sunSearch] in H. cbv zeta in H.
  match type of H with
  | (if ?b then _ else _) = _ => destruct b eqn:Hconv
  end.
  - injection H as <-. unfold Double.sunDistance. cbv zeta. exact Hconv.
  - exact (IH _ H).
Qed.


End SolverFurther.

(** X3. What [findSunAtLongitude] returns is the fallback [startJd - 88], or a
    time at which the provider's Sun is within [0.0001] of the normalised
    target, the distance being taken as lines 98-103 take it. *)
Theorem findSunAtLongitude_result
    (sweph : Double.Sweph) (targetLon startJd direction : spec_float) :
  Double.findSunAtLongitude sweph targetLon startJd direction
  = Double.sub startJd (Double.ofZ 88) \/
  Double.ltb
    (Double.abs
       (Double.sunDistance sweph (Double.normalizeTarget targetLon)
          (Double.findSunAtLongitude sweph targetLon startJd direction)))
    (Double.lit 0.0001) = true.
Proof.
  unfold Double.findSunAtLongitude. cbv zeta. fold (Double.normalizeTarget targetLon).
  destruct (Double.sunSearch sweph 200 _ direction startJd) as [jd|] eqn:Hs.
  - right. eapply sunSearch_sound. exact Hs.
  - left. reflexivity.
Qed.



(** X5. Line 92 leaves a finite double in [[0, 360)] as the target of the
    search, for every finite double passed in. *)
Theorem normalizeTarget_range (targetLon : spec_float) :
  Double.finite targetLon ->
  Double.finite (Double.normalizeTarget targetLon) /\
  sign_bit (Double.normalizeTarget targetLon) = false /\
  (0 <= val (Double.normalizeTarget targetLon) < 360)%Q.
Proof. intros H. exact (normalized_range targetLon H). Qed.

Lemma normalizeTarget_range_witness :
  Double.finite Double.lowTarget /\
  Double.finite (Double.normalizeTarget Double.lowTarget) /\
  sign_bit (Double.normalizeTarget Double.lowTarget) = false /\
  (0 <= val (Double.normalizeTarget Double.lowTarget) < 360)%Q.
Proof.
  assert (H : Double.finite Double.lowTarget) by (split; vm_compute; reflexivity).
  split; [exact H|].
  exact (normalizeTarget_range Double.lowTarget H).
Defined.
